(** * Company dashboard and accessibility helpers

    A shallow embedding of the application-management part of
    [frontend/company.js] (selection set, status filter, single and bulk
    status updates) and of the modal focus trap of [frontend/a11y.js],
    together with the properties the specification states about them.

    Conventions.  Module-level variables of the scripts become the fields
    of a [state] record that every handler threads; calls that reach the
    outside world ([fetch], [showNotification], DOM insertion and removal,
    the re-render) are recorded, in program order, as a list of [effect]s;
    a JavaScript exception is a [Throw] completion.  The part of an [async]
    function that follows an [await] is a function of the outcome of the
    awaited promise. *)

From stdpp Require Import base option list strings pretty gmap.
From Stdlib Require Import ZArith Lia Ascii.

#[local] Set Warnings "-register-all".

Open Scope string_scope.
Open Scope list_scope.

(** ** JavaScript values *)

Module JS.

(** The values that can reach the modelled code: what [JSON.parse]
    produces (numbers restricted to integer literals), [undefined], and
    the built-in members every object literal inherits. *)
Inductive value : Type :=
| Undefined
| Null
| Bool (b : bool)
| Num (z : Z)
| Str (s : string)
| Arr (elems : list value)
| Obj (fields : list (string * value))
| Fun (name : string)
| ObjectPrototype.

(** [ToBoolean]. *)
Definition truthy (v : value) : bool :=
  match v with
  | Undefined | Null => false
  | Bool b => b
  | Num z => negb (z =? 0)%Z
  | Str s => negb (String.eqb s "")
  | Arr _ | Obj _ | Fun _ | ObjectPrototype => true
  end.

(** [ToString], as applied by [+] with a string operand. *)
Fixpoint to_display (v : value) : string :=
  match v with
  | Undefined => "undefined"
  | Null => "null"
  | Bool true => "true"
  | Bool false => "false"
  | Num z => pretty z
  | Str s => s
  | Arr elems =>
      String.concat ","
        (List.map (fun e => match e with
                            | Undefined | Null => ""
                            | _ => to_display e
                            end) elems)
  | Obj _ | ObjectPrototype => "[object Object]"
  | Fun name => "function " +:+ name +:+ "() { [native code] }"
  end.

(** [a || b]. *)
Definition or_else (a b : value) : value := if truthy a then a else b.

(** The properties of [Object.prototype]; an object literal reaches them
    through its prototype link whenever it has no own property of that
    name. *)
Definition Object_prototype : gmap string value :=
  list_to_map
    [ ("constructor", Fun "Object");
      ("hasOwnProperty", Fun "hasOwnProperty");
      ("isPrototypeOf", Fun "isPrototypeOf");
      ("propertyIsEnumerable", Fun "propertyIsEnumerable");
      ("toLocaleString", Fun "toLocaleString");
      ("toString", Fun "toString");
      ("valueOf", Fun "valueOf");
      ("__defineGetter__", Fun "__defineGetter__");
      ("__defineSetter__", Fun "__defineSetter__");
      ("__lookupGetter__", Fun "__lookupGetter__");
      ("__lookupSetter__", Fun "__lookupSetter__");
      ("__proto__", ObjectPrototype) ].

(** [o[key]] for an object literal [o] with own properties [own]. *)
Definition get (own : gmap string value) (key : string) : value :=
  match own !! key with
  | Some v => v
  | None => default Undefined (Object_prototype !! key)
  end.

(** Own property of a parsed JSON object; a repeated key keeps its last
    value. *)
Fixpoint field (key : string) (fields : list (string * value))
  : option value :=
  match fields with
  | [] => None
  | (k, v) :: rest =>
      match field key rest with
      | Some w => Some w
      | None => if decide (k = key) then Some v else None
      end
  end.

(** Longest prefix free of the quote character, and what follows it. *)
Fixpoint span_unquoted (s : string) : string * string :=
  match s with
  | EmptyString => (EmptyString, EmptyString)
  | String c rest =>
      if Ascii.eqb c "'"%char then (EmptyString, s)
      else let (run, tail) := span_unquoted rest in (String c run, tail)
  end.

Fixpoint quote_free (s : string) : bool :=
  match s with
  | EmptyString => true
  | String c rest => negb (Ascii.eqb c "'"%char) && quote_free rest
  end.

(** [s.match(/'([^']+)'/)]: the first capture group of the leftmost
    match, [None] when the result is [null]. *)
Fixpoint match_quoted (s : string) : option string :=
  match s with
  | EmptyString => None
  | String c rest =>
      if Ascii.eqb c "'"%char then
        match span_unquoted rest with
        | (String c1 run, String _ _) => Some (String c1 run)
        | _ => match_quoted rest
        end
      else match_quoted rest
  end.

End JS.

(** ** The applications view of the company dashboard ([company.js]) *)

Module Company.

(** An application record of [data.applications], with the two members
    the selection, the filter and the counts depend on. *)
Record application : Type := { _id : string; status : string }.

(** [let selectedApplications = new Set(); let currentStatusFilter = 'all';]
    A [Set] of strings iterates in insertion order and holds no
    duplicate: a list, with [add] and [delete] written accordingly. *)
Record state : Type :=
  { selectedApplications : list string;
    currentStatusFilter : string }.

Definition initial : state :=
  {| selectedApplications := []; currentStatusFilter := "all" |}.

Definition Set_add (x : string) (s : list string) : list string :=
  if decide (x ∈ s) then s else s ++ [x].

Definition Set_delete (x : string) (s : list string) : list string :=
  filter (λ y, y ≠ x) s.

Definition Set_has (x : string) (s : list string) : bool :=
  bool_decide (x ∈ s).

(** A status update request: [fetch(url, {method, headers, body})] with
    [body = JSON.stringify({status, note})]. *)
Record request : Type :=
  { url : string;
    method : string;
    authorization : string;
    body_status : string;
    body_note : string }.

(** The calls that reach the outside.  [ModalRemove] is [remove()] on the
    element that [document.querySelector('.modal')] returned when the
    handler started: the first [.modal] element of the document, whichever
    dialog that is. *)
Inductive effect : Type :=
| Fetch (r : request)
| ShowNotification (message kind : string)
| AppendModal (title : string)
| ModalRemove
| LoadCompanyApplications.

(** *** Handlers as state-and-effect computations *)

Inductive completion (A : Type) : Type :=
| Normal (a : A)
| Throw (message : string).
Arguments Normal {A} a.
Arguments Throw {A} message.

Record run (A : Type) : Type :=
  { result : completion A; after : state; effects : list effect }.
Arguments result {A} r.
Arguments after {A} r.
Arguments effects {A} r.

Definition M (A : Type) : Type := state → run A.

Definition ret {A} (a : A) : M A :=
  λ st, {| result := Normal a; after := st; effects := [] |}.

Definition bind {A B} (c : M A) (k : A → M B) : M B :=
  λ st,
    let r := c st in
    match result r with
    | Normal a =>
        let r' := k a (after r) in
        {| result := result r'; after := after r';
           effects := effects r ++ effects r' |}
    | Throw m =>
        {| result := Throw m; after := after r; effects := effects r |}
    end.

Definition throw {A} (m : string) : M A :=
  λ st, {| result := Throw m; after := st; effects := [] |}.

(** [try { body } catch (error) { handler(error.message) }] *)
Definition try_catch (body : M unit) (handler : string → M unit) : M unit :=
  λ st,
    let r := body st in
    match result r with
    | Normal _ => r
    | Throw m =>
        let r' := handler m (after r) in
        {| result := result r'; after := after r';
           effects := effects r ++ effects r' |}
    end.

Definition emit (e : effect) : M unit :=
  λ st, {| result := Normal (); after := st; effects := [e] |}.

Definition selected : M (list string) :=
  λ st, {| result := Normal (selectedApplications st); after := st;
           effects := [] |}.

Definition update_selected (f : list string → list string) : M unit :=
  λ st, {| result := Normal ();
           after := {| selectedApplications := f (selectedApplications st);
                       currentStatusFilter := currentStatusFilter st |};
           effects := [] |}.

Definition assign_filter (tag : string) : M unit :=
  λ st, {| result := Normal ();
           after := {| selectedApplications := selectedApplications st;
                       currentStatusFilter := tag |};
           effects := [] |}.

#[export] Instance M_ret : MRet M := @ret.
#[export] Instance M_bind : MBind M := λ A B k c, bind c k.

(** [xs.forEach(f)]; an exception thrown by [f] ends the loop. *)
Fixpoint forEach {A} (xs : list A) (f : A → M unit) : M unit :=
  match xs with
  | [] => ret ()
  | x :: rest => f x;; forEach rest f
  end.

Definition showNotification (message kind : string) : M unit :=
  emit (ShowNotification message kind).

(** A call of [loadCompanyApplications()]: the list is fetched again and
    the view rebuilt from the answer, see [render] below. *)
Definition loadCompanyApplications : M unit := emit LoadCompanyApplications.

(** *** Rendering *)

Record stats : Type :=
  { total : nat; pending : nat; shortlisted : nat; interviewed : nat;
    hired : nat; rejected : nat }.

(** [const filteredApps = currentStatusFilter === 'all' ? applications :
    applications.filter(app => app.status === currentStatusFilter)] *)
Definition filteredApps (filter_tag : string) (applications : list application)
  : list application :=
  if decide (filter_tag = "all") then applications
  else filter (λ app, status app = filter_tag) applications.

(** [applications.filter(a => a.status === tag).length] *)
Definition count_status (tag : string) (applications : list application)
  : nat :=
  length (filter (λ a, status a = tag) applications).

(** [const stats = { total: applications.length, pending: ..., ... }] *)
Definition compute_stats (applications : list application) : stats :=
  {| total := length applications;
     pending := count_status "pending" applications;
     shortlisted := count_status "shortlisted" applications;
     interviewed := count_status "interviewed" applications;
     hired := count_status "hired" applications;
     rejected := count_status "rejected" applications |}.

(** What [loadCompanyApplications] writes into the container once the
    list has arrived: the placeholder for an empty list, else the filter
    tabs with their counts and the table of visible rows. *)
Inductive view : Type :=
| EmptyState
| Table (tabs : stats) (active_tab : string) (rows : list application)
        (select_all_checked : bool) (bulk_buttons : bool).

Definition render (st : state) (applications : list application) : view :=
  if (length applications =? 0)%nat then EmptyState
  else
    let rows := filteredApps (currentStatusFilter st) applications in
    Table (compute_stats applications) (currentStatusFilter st) rows
          ((length (selectedApplications st) =? length rows)%nat
           && (0 <? length rows)%nat)
          (0 <? length (selectedApplications st))%nat.

Definition stats_of (v : view) : option stats :=
  match v with EmptyState => None | Table tabs _ _ _ _ => Some tabs end.

Definition rows_of (v : view) : list application :=
  match v with EmptyState => [] | Table _ _ rows _ _ => rows end.

Definition LF : string := String (ascii_of_nat 10) EmptyString.

(** The row template writes [app._id], unescaped, into a double-quoted
    attribute and there into a quoted string of the handler.  Letters,
    digits, [-] and [_] come out of the HTML parser and of the compilation
    of the handler as they were written. *)
Definition id_char (c : ascii) : bool :=
  let n := nat_of_ascii c in
  ((48 <=? n) && (n <=? 57) || (65 <=? n) && (n <=? 90) ||
   (97 <=? n) && (n <=? 122) || (n =? 45) || (n =? 95))%nat.

Fixpoint carried_verbatim (id : string) : bool :=
  match id with
  | EmptyString => true
  | String c rest => id_char c && carried_verbatim rest
  end.

(** The source text of the handler compiled from
    [onchange="toggleApplicationSelection('${app._id}', this.checked)"]
    when the attribute value reaches the compiler as written. *)
Definition handler_text (id : string) : string :=
  "function onchange(event) {" +:+ LF +:+
  "toggleApplicationSelection('" +:+ id +:+ "', this.checked)" +:+
  LF +:+ "}".

(** [cb.onchange.toString()] for the checkbox of a rendered row whose id
    is carried verbatim.  For any other id the text, if there is a handler
    at all, depends on what the HTML parser makes of the attribute (a
    double quote ends it, a character reference is decoded) and is not
    modelled: [None]. *)
Definition checkbox_onchange (app : application) : option string :=
  if carried_verbatim (_id app) then Some (handler_text (_id app)) else None.

(** [getStatusIcon]: the own properties of the literal [icons], and
    [icons[status] || neutral]. *)
Definition icons : gmap string JS.value :=
  list_to_map
    [ ("pending", JS.Str "🔵");
      ("shortlisted", JS.Str "💛");
      ("interviewed", JS.Str "🟣");
      ("hired", JS.Str "💚");
      ("rejected", JS.Str "❌") ].

Definition getStatusIcon (status : string) : JS.value :=
  JS.or_else (JS.get icons status) (JS.Str "⚪").

(** *** Selection and filter handlers *)

(** [checkboxes] is what [document.querySelectorAll] returns, each entry
    given by the source text of its [onchange] handler.  The assignments
    to [cb.checked] touch only nodes that the re-render replaces and are
    left out. *)
Definition toggleSelectAll (checkboxes : list string) (checked : bool)
  : M unit :=
  forEach checkboxes (λ cb,
    match JS.match_quoted cb with
    | None => throw "Cannot read properties of null (reading '1')"
    | Some appId =>
        if checked then update_selected (Set_add appId)
        else update_selected (Set_delete appId)
    end);;
  loadCompanyApplications.

Definition toggleApplicationSelection (appId : string) (checked : bool)
  : M unit :=
  (if checked then update_selected (Set_add appId)
   else update_selected (Set_delete appId));;
  loadCompanyApplications.

Definition clearSelection : M unit :=
  update_selected (λ _, []);;
  loadCompanyApplications.

Definition filterByStatus (status : string) : M unit :=
  assign_filter status;;
  update_selected (λ _, []);;
  loadCompanyApplications.

(** [bulkUpdateStatus()]: the guard on an empty selection, else the
    dialog is appended to the page. *)
Definition bulkUpdateStatus : M unit :=
  s ← selected;
  if (length s =? 0)%nat then
    showNotification "No applications selected" "warning"
  else emit (AppendModal "Bulk Status Update").

(** The user works on the selection: each gesture runs one handler to
    its end; a handler that throws leaves the state it had reached. *)
Inductive selection_op : Type :=
| ToggleOne (appId : string) (checked : bool)
| SelectAll (checkboxes : list string) (checked : bool)
| Clear.

Definition handler (op : selection_op) : M unit :=
  match op with
  | ToggleOne appId checked => toggleApplicationSelection appId checked
  | SelectAll checkboxes checked => toggleSelectAll checkboxes checked
  | Clear => clearSelection
  end.

Definition handle_all (ops : list selection_op) (st : state) : state :=
  foldl (λ s op, after (handler op s)) st ops.

(** The five status tags of an application. *)
Definition status_tags : list string :=
  ["pending"; "shortlisted"; "interviewed"; "hired"; "rejected"].

(** *** Status updates *)

(** What the handlers read from the page: the value of [#statusNote],
    [#bulkStatus] and [#bulkNote] when the element exists, and whether
    [document.querySelector('.modal')] finds an element. *)
Record document : Type :=
  { statusNote : option string;
    bulkStatus : option string;
    bulkNote : option string;
    modal : bool }.

(** How [response.json()] ends, and how a [fetch] promise settles:
    [fetch] fulfils with a response whatever the HTTP status, and rejects
    only when the exchange itself fails. *)
Inductive body : Type :=
| Json (data : JS.value)
| Unparseable (message : string).

Inductive settled : Type :=
| Fulfilled (ok : bool) (b : body)
| Rejected (message : string).

Inductive promise : Type :=
| Pending
| Settled (o : settled).

Definition is_pending (p : promise) : bool :=
  match p with Pending => true | Settled _ => false end.

Definition is_fulfilled (p : promise) : bool :=
  match p with Settled (Fulfilled _ _) => true | _ => false end.

Definition is_rejected (p : promise) : bool :=
  match p with Settled (Rejected _) => true | _ => false end.

(** [modal.remove()] *)
Definition modal_remove (d : document) : M unit :=
  if modal d then emit ModalRemove
  else throw "Cannot read properties of null (reading 'remove')".

(** [data.error]: an own property, else inherited; no prototype of a
    parsed value defines a property of that name. *)
Definition get_error (data : JS.value) : M JS.value :=
  match data with
  | JS.Undefined =>
      throw "Cannot read properties of undefined (reading 'error')"
  | JS.Null =>
      throw "Cannot read properties of null (reading 'error')"
  | JS.Obj fields =>
      mret (match JS.field "error" fields with
            | Some v => v
            | None => default JS.Undefined (JS.Object_prototype !! "error")
            end)
  | _ => mret JS.Undefined
  end.

(** A commit fails when its request is rejected or answered with a
    status outside the success range. *)
Definition failed (o : settled) : Prop :=
  match o with Fulfilled true _ => False | _ => True end.

(** The error message of the server, as far as the answer carries one:
    the [error] member of a parsed object, when it is not empty. *)
Definition server_error (b : body) : option string :=
  match b with
  | Json (JS.Obj fields) =>
      match JS.field "error" fields with
      | Some v => if JS.truthy v then Some (JS.to_display v) else None
      | None => None
      end
  | _ => None
  end.

Section Network.

(** Globals of the page the scripts are loaded in. *)
Variables (API_URL authToken : string).

Definition status_endpoint (appId : string) : string :=
  API_URL +:+ "/company/applications/" +:+ appId +:+ "/status".

Definition status_request (appId newStatus note : string) : request :=
  {| url := status_endpoint appId;
     method := "PUT";
     authorization := "Bearer " +:+ authToken;
     body_status := newStatus;
     body_note := note |}.

(** [confirmStatusUpdate(appId, newStatus)], the request settling as
    [o].  The handler neither reads nor writes the selection or the
    filter, so what other handlers do while it is suspended does not
    show in it. *)
Definition confirmStatusUpdate (d : document) (appId newStatus : string)
    (o : settled) : M unit :=
  let note := default "" (statusNote d) in
  try_catch
    (emit (Fetch (status_request appId newStatus note));;
     match o with
     | Rejected m => throw m
     | Fulfilled true _ =>
         showNotification ("✓ Status updated to " +:+ newStatus) "success";;
         modal_remove d;;
         loadCompanyApplications
     | Fulfilled false (Unparseable m) => throw m
     | Fulfilled false (Json data) =>
         e ← get_error data;
         showNotification
           ("Failed to update status: " +:+
            JS.to_display (JS.or_else e (JS.Str "Unknown error")))
           "error"
     end)
    (λ m, showNotification ("Failed to update status: " +:+ m) "error").

(** [confirmBulkUpdate()] is suspended once, at
    [await Promise.all(promises)].  [bulk] is the run of one call:
    the dashboard state, the request promises in dispatch order,
    whether the call is still suspended, and its effects so far. *)
Record bulk : Type :=
  { app : state;
    requests : list promise;
    awaiting : bool;
    trace : list effect }.

(** The code after the [await]: [Promise.all] fulfilled ([None]) or
    rejected with a reason. *)
Definition after_await (d : document) (rejection : option string)
  : M unit :=
  try_catch
    (match rejection with
     | Some m => throw m
     | None =>
         s ← selected;
         showNotification
           ("✓ Updated " +:+ pretty (length s) +:+ " application(s)")
           "success";;
         update_selected (λ _, []);;
         modal_remove d;;
         loadCompanyApplications
     end)
    (λ m, showNotification ("Failed to update applications: " +:+ m)
                           "error").

Definition resume (d : document) (rejection : option string) (b : bulk)
  : bulk :=
  let r := after_await d rejection (app b) in
  {| app := after r; requests := requests b; awaiting := false;
     trace := trace b ++ effects r |}.

(** The synchronous part: one [fetch] per selected id, in iteration
    order.  A missing [#bulkStatus] throws before the [try].
    [Promise.all] of no promise at all is fulfilled at once. *)
Definition confirmBulkUpdate (d : document) (st : state) : bulk :=
  match bulkStatus d with
  | None => {| app := st; requests := []; awaiting := false; trace := [] |}
  | Some newStatus =>
      let note := default "" (bulkNote d) in
      let ids := selectedApplications st in
      let b := {| app := st;
                  requests := map (λ _, Pending) ids;
                  awaiting := true;
                  trace := map (λ appId,
                             Fetch (status_request appId newStatus note))
                             ids |} in
      if forallb is_fulfilled (requests b) then resume d None b else b
  end.

(** Request [i] settles as [o].  [Promise.all] rejects with the first
    rejection and fulfils once every promise is fulfilled; a
    settlement after that only changes the promise. *)
Definition settle (d : document) (i : nat) (o : settled) (b : bulk)
  : option bulk :=
  match requests b !! i with
  | Some Pending =>
      let b' := {| app := app b;
                   requests := <[i := Settled o]> (requests b);
                   awaiting := awaiting b;
                   trace := trace b |} in
      Some (if awaiting b then
              match o with
              | Rejected m => resume d (Some m) b'
              | Fulfilled _ _ =>
                  if forallb is_fulfilled (requests b')
                  then resume d None b' else b'
              end
            else b')
  | _ => None
  end.

(** A run: the requests settle one after the other, in any order. *)
Fixpoint settle_all (d : document) (events : list (nat * settled))
    (b : bulk) : option bulk :=
  match events with
  | [] => Some b
  | (i, o) :: rest => b' ← settle d i o b; settle_all d rest b'
  end.

Inductive reachable (d : document) (st : state) : bulk → Prop :=
| reach_start : reachable d st (confirmBulkUpdate d st)
| reach_settle b i o b' :
    reachable d st b → settle d i o b = Some b' → reachable d st b'.

(** *** Statements about a bulk run *)

Definition is_fetch (e : effect) : bool :=
  match e with Fetch _ => true | _ => false end.

Definition is_notification (e : effect) : bool :=
  match e with ShowNotification _ _ => true | _ => false end.

(** The requests of a confirmed bulk update: one per selected id. *)
Definition dispatched (newStatus note : string) (ids : list string)
  : list effect :=
  map (λ appId, Fetch (status_request appId newStatus note)) ids.

Definition all_settled (b : bulk) : Prop :=
  Forall (λ p, is_pending p = false) (requests b).

Definition all_fulfilled (b : bulk) : Prop :=
  Forall (λ p, is_fulfilled p = true) (requests b).


(** "Neither the outcome notification nor the refresh comes before
    every request has settled." *)
Definition reports_after_all_settled (d : document) (st : state) : Prop :=
  ∀ b, reachable d st b →
       (LoadCompanyApplications ∈ trace b ∨
        Exists (λ e, is_notification e = true) (trace b)) →
       all_settled b.


(** The three shapes a run over a non-empty selection can have:
    suspended at the [await]; resumed after every request was
    fulfilled; resumed by a rejection. *)
Inductive phase (d : document) (st : state) (sent : list effect)
  : bulk → Prop :=
| phase_suspended reqs :
    Forall (λ p, is_rejected p = false) reqs →
    phase d st sent
      {| app := st; requests := reqs; awaiting := true; trace := sent |}
| phase_completed reqs :
    Forall (λ p, is_fulfilled p = true) reqs →
    phase d st sent
      {| app := after (after_await d None st); requests := reqs;
         awaiting := false;
         trace := sent ++ effects (after_await d None st) |}
| phase_failed reqs m :
    Exists (λ p, is_rejected p = true) reqs →
    phase d st sent
      {| app := st; requests := reqs; awaiting := false;
         trace := sent ++
           [ShowNotification ("Failed to update applications: " +:+ m)
                             "error"] |}.

End Network.

(** *** A sample run *)

(** The bulk dialog with "hired" chosen and no note, two ids selected. *)
Definition bulk_dialog : document :=
  {| statusNote := None; bulkStatus := Some "hired"; bulkNote := None;
     modal := true |}.

Definition two_selected : state :=
  {| selectedApplications := ["a"; "b"]; currentStatusFilter := "pending" |}.

Definition two_requested : bulk :=
  confirmBulkUpdate "/api" "token" bulk_dialog two_selected.

(** The request for "a" fails on the network while "b" is under way. *)
Definition first_rejected : bulk :=
  default two_requested
    (settle bulk_dialog 0 (Rejected "Failed to fetch") two_requested).

(** Then "b" is answered. *)
Definition rejected_then_answered : bulk :=
  default first_rejected
    (settle bulk_dialog 1 (Fulfilled true (Json (JS.Obj []))) first_rejected).

(** Both are answered, "b" first, "a" with a refusal of the server. *)
Definition both_answered : bulk :=
  default two_requested
    (settle_all bulk_dialog
       [ (1, Fulfilled true (Json (JS.Obj [])));
         (0, Fulfilled false (Json (JS.Obj [("error", JS.Str "Forbidden")]))) ]
       two_requested).

End Company.

(** ** The modal focus trap ([a11y.js]) *)

Module A11y.

(** A DOM element, by identity. *)
Definition element : Type := nat.










Section Page.

(** What the browser knows of the page: the elements that can take the
    focus (rendered, neither hidden nor disabled), and what
    [document.querySelector('input[type="search"]')] finds. *)
Variable takes_focus : element → bool.
Variable searchInput : option element.





(** The elements of the modal subtree, and the sequential navigation
    order of the whole page. *)
Variables (descendants order : list element).




End Page.


End A11y.

Import Company.
Import A11y.

(** ** More of the applications view *)

Module Tabs.

(** The number shown on a filter tab: [All (${stats.total})],
    [Pending (${stats.pending})], and so on; the page has no other tab. *)
Definition tab_count (tabs : stats) (tag : string) : option nat :=
  if decide (tag = "all") then Some (total tabs)
  else if decide (tag = "pending") then Some (pending tabs)
  else if decide (tag = "shortlisted") then Some (shortlisted tabs)
  else if decide (tag = "interviewed") then Some (interviewed tabs)
  else if decide (tag = "hired") then Some (hired tabs)
  else if decide (tag = "rejected") then Some (rejected tabs)
  else None.

(** The tags [filterByStatus] is called with. *)
Definition filter_tags : list string := "all" :: status_tags.

Definition select_all_checked_of (v : view) : bool :=
  match v with EmptyState => false | Table _ _ _ c _ => c end.

Definition bulk_buttons_of (v : view) : bool :=
  match v with EmptyState => false | Table _ _ _ _ b => b end.

(** The checkboxes [toggleSelectAll] finds on a rendered view, where
    every row has a modelled handler. *)
Definition row_checkboxes (v : view) : option (list string) :=
  mapM checkbox_onchange (rows_of v).

(** An id as the row template and the select-all pattern can carry it:
    not empty, and made of letters, digits, [-] and [_]. *)
Definition plain_id (app : application) : Prop :=
  _id app ≠ "" ∧ carried_verbatim (_id app) = true.

(** [updateApplicationStatus(appId, newStatus)] only opens the
    confirmation dialog. *)
Definition updateApplicationStatus (appId newStatus : string) : M unit :=
  emit (AppendModal "Confirm Status Update").

End Tabs.
Import Tabs.

(** ** Arrow-key navigation of menus and list boxes ([a11y.js]) *)

Module Menus.

(** The value of [currentIndex]: an integer, or [NaN] once a remainder by
    zero has been taken. *)
Inductive number : Type :=
| NaN
| Int (z : Z).

Definition plus (x : number) (k : Z) : number :=
  match x with NaN => NaN | Int z => Int (z + k) end.

(** [x % n] for an integer [n]: the sign follows the dividend. *)
Definition remainder (x : number) (n : Z) : number :=
  match x with
  | NaN => NaN
  | Int z => if (n =? 0)%Z then NaN else Int (Z.rem z n)
  end.

(** [items[x]]: [undefined] outside the array. *)
Definition item_at (items : list element) (x : number) : option element :=
  match x with
  | NaN => None
  | Int z => if (0 <=? z)%Z then items !! Z.to_nat z else None
  end.

(** The closure of one container: the items found when
    [setupArrowKeyNavigation] ran, and [currentIndex]. *)
Record menu : Type :=
  { items : list element;
    currentIndex : number }.

Definition opened (items : list element) : menu :=
  {| items := items; currentIndex := Int 0 |}.

Inductive reaction : Type :=
| Ignored
| Focused (e : element)
| Threw (message : string).

(** [items[x].focus()] *)
Definition focus_item (items : list element) (x : number) : reaction :=
  match item_at items x with
  | Some e => Focused e
  | None => Threw "Cannot read properties of undefined (reading 'focus')"
  end.

(** The [keydown] listener of the container; the index is assigned before
    the item is focused. *)
Definition on_menu_key (key : string) (m : menu) : menu * reaction :=
  let n := Z.of_nat (length (items m)) in
  if decide (key = "ArrowDown") then
    let i := remainder (plus (currentIndex m) 1) n in
    ({| items := items m; currentIndex := i |}, focus_item (items m) i)
  else if decide (key = "ArrowUp") then
    let i := remainder (plus (plus (currentIndex m) (-1)) n) n in
    ({| items := items m; currentIndex := i |}, focus_item (items m) i)
  else if decide (key = "Home") then
    ({| items := items m; currentIndex := Int 0 |},
     focus_item (items m) (Int 0))
  else if decide (key = "End") then
    ({| items := items m; currentIndex := Int (n - 1) |},
     focus_item (items m) (Int (n - 1)))
  else (m, Ignored).

Definition menu_keys : list string := ["ArrowDown"; "ArrowUp"; "Home"; "End"].

(** Keys pressed one after the other; a listener that throws ends that
    event only. *)
Definition on_menu_keys (keys : list string) (m : menu) : menu :=
  foldl (λ m key, (on_menu_key key m).1) m keys.

(** The index points at an item. *)
Definition in_range (m : menu) : Prop :=
  ∃ i, currentIndex m = Int (Z.of_nat i) ∧ i < length (items m).

End Menus.
Import Menus.

(** ** Live regions ([a11y.js]) *)

Module LiveRegions.

(** The text of [#live-region-polite] and of [#live-region-assertive]
    ([None]: no such element), and the callbacks handed to [setTimeout],
    oldest first, each with the region it captured ([true]: the assertive
    one) and its message.  All delays being equal, the callbacks run in
    the order they were scheduled. *)
Record live : Type :=
  { polite : option string;
    assertive : option string;
    timers : list (bool * string) }.

Definition region (urgent : bool) (s : live) : option string :=
  if urgent then assertive s else polite s.

Definition write (urgent : bool) (text : string) (s : live) : live :=
  if urgent then
    {| polite := polite s; assertive := Some text; timers := timers s |}
  else
    {| polite := Some text; assertive := assertive s; timers := timers s |}.

Definition is_urgent (priority : string) : bool :=
  bool_decide (priority = "assertive").

(** [announce(message, priority)] *)
Definition announce (message priority : string) (s : live) : live :=
  let urgent := is_urgent priority in
  match region urgent s with
  | None => s
  | Some _ =>
      let s1 := write urgent "" s in
      {| polite := polite s1; assertive := assertive s1;
         timers := timers s1 ++ [(urgent, message)] |}
  end.

(** The oldest callback runs: [liveRegion.textContent = message]. *)
Definition timeout (s : live) : live :=
  match timers s with
  | [] => s
  | (urgent, message) :: rest =>
      let s1 := write urgent message s in
      {| polite := polite s1; assertive := assertive s1; timers := rest |}
  end.

(** [announceFormError(fieldName, error)] *)
Definition announceFormError (fieldName error : string) : live → live :=
  announce ("Error in " +:+ fieldName +:+ ": " +:+ error) "assertive".

Inductive event : Type :=
| Announce (message priority : string)
| Timeout.

Definition step (s : live) (e : event) : live :=
  match e with
  | Announce message priority => announce message priority s
  | Timeout => timeout s
  end.

Definition run_events (es : list event) (s : live) : live := foldl step s es.

(** Every callback still scheduled runs. *)
Definition drain (s : live) : live :=
  Nat.iter (length (timers s)) timeout s.

(** The messages announced to one region, in order. *)
Definition announced (urgent : bool) (es : list event) : list string :=
  omap (λ e, match e with
             | Announce message priority =>
                 if bool_decide (is_urgent priority = urgent)
                 then Some message else None
             | Timeout => None
             end) es.

(** The messages of the callbacks still scheduled for one region, and what
    the region will read once they have run. *)
Definition scheduled (urgent : bool) (s : live) : list string :=
  omap (λ t : bool * string,
          if bool_decide (t.1 = urgent) then Some t.2 else None) (timers s).

Definition eventual (urgent : bool) (s : live) : option string :=
  match region urgent s with
  | None => None
  | Some text => Some (default text (last (scheduled urgent s)))
  end.

(** Callbacks are only ever scheduled for a region that exists. *)
Definition regions_exist (s : live) : Prop :=
  ∀ t, t ∈ timers s → is_Some (region t.1 s).

End LiveRegions.
Import LiveRegions.

(** ** Input helpers ([security-utils.js]) *)

Module Text.

(** A JavaScript string: its UTF-16 code units, which is what [length],
    [substring], [trim] and the character classes of a pattern see. *)
Definition jstring : Type := list N.

(** A literal of the source, all of whose characters are ASCII. *)
Definition lit (s : string) : jstring :=
  map N_of_ascii (String.list_ascii_of_string s).

(** White space and line terminators, as [trim] strips them. *)
Definition is_space (c : N) : bool :=
  bool_decide (c ∈ [9; 10; 11; 12; 13; 32; 160; 5760; 8232; 8233; 8239;
                    8287; 12288; 65279]%N)
  || ((8192 <=? c)%N && (c <=? 8202)%N).

Fixpoint trim_start (s : jstring) : jstring :=
  match s with
  | [] => []
  | c :: rest => if is_space c then trim_start rest else s
  end.

Definition trim_end (s : jstring) : jstring :=
  reverse (trim_start (reverse s)).

Definition trim (s : jstring) : jstring := trim_end (trim_start s).

Definition startsWith (prefix s : jstring) : bool :=
  bool_decide (take (length prefix) s = prefix).

(** [s.substring(0, n)] for an integer [n]: a negative [n] counts as 0, one
    beyond the end as the length. *)
Definition substring_to (n : Z) (s : jstring) : jstring :=
  take (Z.to_nat n) s.

End Text.
Import Text.

Module SecurityUtils.

(** An argument checked with [typeof ... === 'string']. *)
Inductive argument : Type :=
| NotAString
| AString (s : jstring).

(** [sanitizeUrl(url)]; [None] is [null]. *)
Definition sanitizeUrl (url : argument) : option jstring :=
  match url with
  | NotAString => None
  | AString url =>
      let url := trim url in
      if startsWith (lit "http://") url || startsWith (lit "https://") url
      then Some url
      else None
  end.

(** [sanitizeInput(str, maxLength)], [maxLength] an integer (1000 when
    left out). *)
Definition sanitizeInput (str : argument) (maxLength : Z) : jstring :=
  match str with
  | NotAString => []
  | AString str =>
      let str := trim str in
      if (maxLength <? Z.of_nat (length str))%Z
      then substring_to maxLength str
      else str
  end.

Definition is_upper (c : N) : bool := ((65 <=? c) && (c <=? 90))%N.
Definition is_lower (c : N) : bool := ((97 <=? c) && (c <=? 122))%N.
Definition is_digit (c : N) : bool := ((48 <=? c) && (c <=? 57))%N.
Definition is_special (c : N) : bool :=
  bool_decide (c ∈ lit "!@#$%^&*()_+-=[]{}|;:,.<>?").

Record password_check : Type :=
  { valid : bool;
    errors : list string;
    strength : string }.

(** [validatePassword(password)] for a string, or for [undefined] or
    [null] ([None]). *)
Definition validatePassword (password : option jstring) : password_check :=
  let too_short :=
    {| valid := false;
       errors := ["Password must be at least 8 characters"];
       strength := "weak" |} in
  match password with
  | None => too_short
  | Some password =>
      if (length password <? 8)%nat then too_short
      else
        let hasUpper := existsb is_upper password in
        let hasLower := existsb is_lower password in
        let hasDigit := existsb is_digit password in
        let hasSpecial := existsb is_special password in
        let errors :=
          (if hasUpper then [] else ["Must contain uppercase letters"]) ++
          (if hasLower then [] else ["Must contain lowercase letters"]) ++
          (if hasDigit then [] else ["Must contain numbers"]) in
        if hasUpper && hasLower && hasDigit then
          {| valid := true;
             errors := errors;
             strength :=
               if hasSpecial && (12 <=? length password)%nat then "strong"
               else if hasSpecial || (10 <=? length password)%nat
                    then "medium"
                    else "acceptable" |}
        else {| valid := false; errors := errors; strength := "weak" |}
  end.

(** Neither end is white space. *)
Definition trimmed (s : jstring) : Prop :=
  (∀ c, head s = Some c → is_space c = false) ∧
  (∀ c, last s = Some c → is_space c = false).

End SecurityUtils.
Import SecurityUtils.

(** ** Posting a job ([company.js]) *)

Module Jobs.

(** The values of the fields of the job form. *)
Record form : Type :=
  { jobTitle : jstring;
    jobDescription : jstring;
    jobRequirements : jstring;
    jobDepartment : jstring;
    jobLocation : jstring;
    jobType : jstring;
    jobSkills : jstring }.

Record jobData : Type :=
  { title : jstring;
    company_name : jstring;
    location : jstring;
    job_type : jstring;
    description : jstring;
    required_skills : list jstring }.

(** What [submitJob] does to the outside; the console is left out. *)
Inductive job_effect : Type :=
| Alert (message : string)
| PostJob (data : jobData)
| RemoveModal
| LoadCompanyJobs.

Definition comma : N := 44%N.

(** [s.split(',')] *)
Fixpoint split_comma (s : jstring) : list jstring :=
  match s with
  | [] => [[]]
  | c :: rest =>
      if (c =? comma)%N then [] :: split_comma rest
      else match split_comma rest with
           | part :: parts => (c :: part) :: parts
           | [] => [[c]]
           end
  end.

(** [parts.join(',')] *)
Fixpoint join_comma (parts : list jstring) : jstring :=
  match parts with
  | [] => []
  | [part] => part
  | part :: rest => part ++ comma :: join_comma rest
  end.

(** [value.split(',').map(s => s.trim()).filter(s => s)] *)
Definition skills_of (value : jstring) : list jstring :=
  filter (λ skill, skill ≠ []) (map trim (split_comma value)).

Definition requirements_heading : jstring :=
  [10; 10]%N ++ lit "Requirements:" ++ [10]%N.

(** The object [jobData], once title and description have passed. *)
Definition jobData_of (f : form) : jobData :=
  let requirements := trim (jobRequirements f) in
  let department := trim (jobDepartment f) in
  {| title := trim (jobTitle f);
     company_name :=
       if decide (department = []) then lit "Smart Hiring" else department;
     location := trim (jobLocation f);
     job_type := jobType f;
     description :=
       trim (jobDescription f) ++
       (if decide (requirements = []) then []
        else requirements_heading ++ requirements);
     required_skills := skills_of (jobSkills f) |}.

(** [x.error] and [x.message] on a parsed value: no prototype of such a
    value defines either name. *)
Definition member (key : string) (data : JS.value) : option JS.value :=
  match data with
  | JS.Undefined | JS.Null => None
  | JS.Obj fields =>
      Some (match JS.field key fields with
            | Some v => v
            | None => default JS.Undefined (JS.Object_prototype !! key)
            end)
  | _ => Some JS.Undefined
  end.

Section Submit.

(** [JSON.stringify], on parsed values. *)
Variable stringify : JS.value → string.

(** The part of the [try] block after the request has been answered: its
    effects, and the message of the exception that ended it, if any. *)
Definition answered (modal_found : bool) (ok : bool) (b : body)
  : list job_effect * option string :=
  match b with
  | Unparseable m => ([], Some m)
  | Json data =>
      if ok then
        if modal_found
        then ([Alert "✓ Job posted successfully!"; RemoveModal;
               LoadCompanyJobs], None)
        else ([Alert "✓ Job posted successfully!"],
              Some "Cannot read properties of null (reading 'remove')")
      else
        match member "error" data, member "message" data with
        | Some e, Some m =>
            let errorMsg :=
              JS.or_else (JS.or_else e m) (JS.Str (stringify data)) in
            ([Alert ("Failed to post job: " +:+ JS.to_display errorMsg)],
             None)
        | _, _ =>
            ([], Some "Cannot read properties of null (reading 'error')")
        end
  end.

(** [submitJob(e)], the request settling as [o]; [modal_found] tells
    whether [e.target.closest('.modal')] finds the dialog. *)
Definition submitJob (f : form) (modal_found : bool) (o : settled)
  : list job_effect :=
  if decide (trim (jobTitle f) = [] ∨ trim (jobDescription f) = []) then
    [Alert "Title and Description are required!"]
  else
    let r := match o with
             | Rejected m => ([], Some m)
             | Fulfilled ok b => answered modal_found ok b
             end in
    PostJob (jobData_of f) ::
    r.1 ++
    match r.2 with
    | None => []
    | Some m => [Alert ("Failed to post job: " +:+ m);
                 Alert ("Failed to post job: " +:+ m)]
    end.

End Submit.

Definition is_post (e : job_effect) : bool :=
  match e with PostJob _ => true | _ => false end.

Definition is_alert (e : job_effect) : bool :=
  match e with Alert _ => true | _ => false end.

(** Two sample forms. *)
Definition blank_form : form :=
  {| jobTitle := lit "  "; jobDescription := lit "Build things";
     jobRequirements := []; jobDepartment := []; jobLocation := [];
     jobType := lit "Full-time"; jobSkills := [] |}.

Definition engineer_form : form :=
  {| jobTitle := lit " Engineer "; jobDescription := lit "Build things";
     jobRequirements := lit "Rocq"; jobDepartment := lit "  ";
     jobLocation := lit "Remote"; jobType := lit "Full-time";
     jobSkills := lit "rocq, ,ocaml ,," |}.

End Jobs.
Import Jobs.

(** ** The e-mail pattern ([security-utils.js]) *)

Module Pattern.

(** The regular expressions the e-mail pattern is built from, over code
    units. *)
Inductive regex : Type :=
| Never
| Eps
| Class (p : N → bool)
| Seq (r1 r2 : regex)
| Alt (r1 r2 : regex)
| Star (r : regex).

(** [r+] and [r{2,}] *)
Definition Plus (r : regex) : regex := Seq r (Star r).
Definition TwoOrMore (r : regex) : regex := Seq r (Seq r (Star r)).

(** The strings a pattern matches as a whole. *)
Inductive lang : regex → jstring → Prop :=
| lang_eps : lang Eps []
| lang_class p c : p c = true → lang (Class p) [c]
| lang_seq r1 r2 s1 s2 :
    lang r1 s1 → lang r2 s2 → lang (Seq r1 r2) (s1 ++ s2)
| lang_alt_l r1 r2 s : lang r1 s → lang (Alt r1 r2) s
| lang_alt_r r1 r2 s : lang r2 s → lang (Alt r1 r2) s
| lang_star_nil r : lang (Star r) []
| lang_star_app r s1 s2 :
    lang r s1 → lang (Star r) s2 → lang (Star r) (s1 ++ s2).

(** Matching by derivatives. *)
Fixpoint nullable (r : regex) : bool :=
  match r with
  | Never => false
  | Eps => true
  | Class _ => false
  | Seq r1 r2 => nullable r1 && nullable r2
  | Alt r1 r2 => nullable r1 || nullable r2
  | Star _ => true
  end.

Fixpoint deriv (c : N) (r : regex) : regex :=
  match r with
  | Never => Never
  | Eps => Never
  | Class p => if p c then Eps else Never
  | Seq r1 r2 =>
      Alt (Seq (deriv c r1) r2) (if nullable r1 then deriv c r2 else Never)
  | Alt r1 r2 => Alt (deriv c r1) (deriv c r2)
  | Star r => Seq (deriv c r) (Star r)
  end.

(** [/^r$/.test(s)] *)
Definition test (r : regex) (s : jstring) : bool :=
  nullable (foldl (λ r c, deriv c r) r s).

Definition is_letter (c : N) : bool := is_upper c || is_lower c.

(** [[a-zA-Z0-9._%+-]] and [[a-zA-Z0-9.-]] *)
Definition local_char (c : N) : bool :=
  is_letter c || is_digit c || bool_decide (c ∈ lit "._%+-").
Definition domain_char (c : N) : bool :=
  is_letter c || is_digit c || bool_decide (c ∈ lit ".-").

Definition at_sign : N := 64%N.
Definition dot : N := 46%N.

(** [/^[a-zA-Z0-9._%+-]+@[a-zA-Z0-9.-]+\.[a-zA-Z]{2,}$/] *)
Definition email_pattern : regex :=
  Seq (Plus (Class local_char))
    (Seq (Class (N.eqb at_sign))
       (Seq (Plus (Class domain_char))
          (Seq (Class (N.eqb dot))
             (TwoOrMore (Class is_letter))))).

(** [validateEmail(email)] for a string. *)
Definition validateEmail (email : jstring) : bool := test email_pattern email.

End Pattern.
Import Pattern.

(** ** Status drop-downs ([company.js]) *)

Module Dropdowns.

(** The [.status-dropdown-menu] elements of the table, in document order:
    the record each belongs to (its element id is [dropdown-] followed by
    the record id) and whether it carries the class [show]. *)
Record dropdown : Type := { owner : string; show : bool }.

Definition close (d : dropdown) : dropdown :=
  {| owner := owner d; show := false |}.

(** [classList.toggle('show')] on the first element with that id. *)
Fixpoint toggle_first (appId : string) (menus : list dropdown)
  : option (list dropdown) :=
  match menus with
  | [] => None
  | d :: rest =>
      if decide (owner d = appId)
      then Some ({| owner := owner d; show := negb (show d) |} :: rest)
      else (d ::.) <$> toggle_first appId rest
  end.

(** [toggleStatusDropdown(appId, event)]: every other menu is closed, then
    the menu of the record is toggled; without such a menu that last step
    throws ([None] in the second component). *)
Definition toggleStatusDropdown (appId : string) (menus : list dropdown)
  : list dropdown * option string :=
  let others_closed :=
    map (λ d, if decide (owner d ≠ appId) then close d else d) menus in
  match toggle_first appId others_closed with
  | Some menus' => (menus', None)
  | None =>
      (others_closed,
       Some "Cannot read properties of null (reading 'classList')")
  end.

(** The [click] listener of the document. *)
Definition click_outside (menus : list dropdown) : list dropdown :=
  map close menus.

Inductive gesture : Type :=
| ClickBadge (appId : string)
| ClickOutside.

Definition after_gesture (menus : list dropdown) (g : gesture)
  : list dropdown :=
  match g with
  | ClickBadge appId => (toggleStatusDropdown appId menus).1
  | ClickOutside => click_outside menus
  end.

Definition open_menus (menus : list dropdown) : list string :=
  map owner (filter (λ d, show d = true) menus).

End Dropdowns.
Import Dropdowns.

(** * Properties *)

(** Runs the monadic layer of a handler down to records. *)
Ltac run_M :=
  cbv beta iota zeta delta
    [mbind M_bind bind mret M_ret ret throw emit try_catch showNotification
     loadCompanyApplications modal_remove get_error selected update_selected
     assign_filter result after effects];
  cbn [app].

(** Splits [H : s ∈ status_tags] into the five cases. *)
Ltac by_status H :=
  unfold status_tags in H;
  repeat (apply elem_of_cons in H as [H|H]);
  [ .. | by apply elem_of_nil in H ].

(** ** Selection set and status filter *)

Lemma after_forEach_filter {A} (xs : list A) (f : A → M unit) st :
  (∀ x s, currentStatusFilter (after (f x s)) = currentStatusFilter s) →
  currentStatusFilter (after (forEach xs f st)) = currentStatusFilter st.
Proof.
  intros Hf. revert st.
  induction xs as [|x xs IH]; intros st; [reflexivity|].
  cbn [forEach]. unfold mbind, M_bind, bind.
  specialize (Hf x st).
  destruct (f x st) as [[[]|m] st1 ef]; cbn in *; [|exact Hf].
  rewrite IH. exact Hf.
Qed.

Lemma handler_filter op st :
  currentStatusFilter (after (handler op st)) = currentStatusFilter st.
Proof.
  destruct op as [appId [|]|checkboxes checked|]; try reflexivity.
  cbn [handler]. unfold toggleSelectAll, mbind, M_bind, bind.
  match goal with
  | |- context [forEach ?xs ?f st] =>
      pose proof (after_forEach_filter xs f st) as H;
      destruct (forEach xs f st) as [[[]|m] st1 ef]
  end; cbn in *; apply H;
    intros x s; destruct (JS.match_quoted x), checked; reflexivity.
Qed.

#[local] Arguments String.append !s1 s2 : simpl nomatch.

Lemma span_unquoted_run (run rest : string) :
  JS.quote_free run = true →
  JS.span_unquoted (run +:+ String "'"%char rest)
  = (run, String "'"%char rest).
Proof.
  induction run as [|c run IH]; cbn; [done|].
  intros [Hc Hrun]%andb_true_iff.
  destruct (Ascii.eqb c "'"%char); [discriminate Hc|].
  by rewrite IH.
Qed.

(** The capture group taken from the handler text is the id written into
    it, for an id that is not empty and holds no quote. *)
Lemma match_quoted_checkbox (id : string) :
  id ≠ "" → JS.quote_free id = true →
  JS.match_quoted (handler_text id) = Some id.
Proof.
  intros Hne Hfree. unfold handler_text. cbn.
  rewrite (span_unquoted_run _ _ Hfree).
  by destruct id.
Qed.

(** C10.  The three selection handlers (toggle of one id, select-all,
    clear) never write the status filter: whatever the filter was, and
    whatever sequence of these gestures runs (a select-all that throws
    half-way included), the filter afterwards is the filter before. *)
Theorem selection_handlers_keep_filter (ops : list selection_op) (st : state) :
  currentStatusFilter (handle_all ops st) = currentStatusFilter st.
Proof.
  revert st. induction ops as [|op ops IH]; intros st; [reflexivity|].
  cbn [handle_all foldl]. fold (handle_all ops (after (handler op st))).
  rewrite IH. apply handler_filter.
Qed.

(** C6.  [filterByStatus(tag)] makes [tag] the active filter and leaves the
    selection empty, whatever was selected before; it then asks for the
    re-render. *)
Theorem filterByStatus_resets_selection (tag : string) (st : state) :
  currentStatusFilter (after (filterByStatus tag st)) = tag ∧
  selectedApplications (after (filterByStatus tag st)) = [] ∧
  result (filterByStatus tag st) = Normal () ∧
  effects (filterByStatus tag st) = [LoadCompanyApplications].
Proof. destruct st; repeat split. Qed.

(** C3.  [bulkUpdateStatus()] on an empty selection shows the warning
    "No applications selected" and does nothing else: no request is
    issued, no dialog is opened, the state is unchanged. *)
Theorem bulkUpdateStatus_empty_selection (st : state) :
  selectedApplications st = [] →
  effects (bulkUpdateStatus st) =
    [ShowNotification "No applications selected" "warning"] ∧
  (∀ r, Fetch r ∉ effects (bulkUpdateStatus st)) ∧
  after (bulkUpdateStatus st) = st ∧
  result (bulkUpdateStatus st) = Normal ().
Proof.
  destruct st as [sel tag]; cbn; intros ->; cbn.
  repeat split. intros r Hr. apply list_elem_of_singleton in Hr. discriminate.
Qed.

Lemma bulkUpdateStatus_empty_selection_witness :
  effects (bulkUpdateStatus initial) =
    [ShowNotification "No applications selected" "warning"].
Proof.
  exact (proj1 (bulkUpdateStatus_empty_selection initial eq_refl)).
Defined.

(** ** Visible rows and per-status counts *)






(** C7.  The visible rows: under the tag "all" the list itself; under any
    other tag the records whose status is that tag, in their original
    order (a sub-list of the full list that keeps every record of that
    status and no other).  These are the rows the view shows. *)
Theorem filteredApps_spec (applications : list application) :
  filteredApps "all" applications = applications ∧
  (∀ tag, tag ≠ "all" →
     filteredApps tag applications
       = filter (λ app, status app = tag) applications ∧
     sublist (filteredApps tag applications) applications ∧
     (∀ app, app ∈ filteredApps tag applications
             ↔ app ∈ applications ∧ status app = tag) ∧
     filteredApps tag applications
       ++ filter (λ app, ¬ status app = tag) applications
       ≡ₚ applications) ∧
  (∀ st, rows_of (render st applications)
         = filteredApps (currentStatusFilter st) applications).
Proof.
  split; [reflexivity|split].
  - intros tag Htag. unfold filteredApps. rewrite decide_False by done.
    split; [reflexivity|split; [apply sublist_filter|split]].
    + intros app. rewrite list_elem_of_filter. tauto.
    + apply filter_app_complement.
  - intros st. unfold render, filteredApps.
    destruct applications; [|reflexivity].
    cbn. by case_decide.
Qed.

Lemma filteredApps_spec_witness :
  let apps := [ {| _id := "a"; status := "pending" |};
                {| _id := "b"; status := "hired" |};
                {| _id := "c"; status := "pending" |} ] in
  filteredApps "pending" apps
  = [ {| _id := "a"; status := "pending" |};
      {| _id := "c"; status := "pending" |} ].
Proof.
  intros apps.
  exact (proj1 (proj1 (proj2 (filteredApps_spec apps)) "pending"
                  ltac:(discriminate))).
Defined.

(** ** Status icons *)

Lemma getStatusIcon_enumerated :
  map getStatusIcon status_tags
  = [JS.Str "🔵"; JS.Str "💛"; JS.Str "🟣"; JS.Str "💚"; JS.Str "❌"].
Proof. reflexivity. Qed.

Lemma icons_lookup_other (status : string) :
  status ∉ status_tags → icons !! status = None.
Proof.
  intros Hout. unfold icons. apply not_elem_of_list_to_map_1.
  cbn. exact Hout.
Qed.

(** A status that is neither one of the five tags nor the name of a member
    of [Object.prototype] gets the neutral icon. *)
Lemma getStatusIcon_unknown (status : string) :
  status ∉ status_tags →
  JS.Object_prototype !! status = None →
  getStatusIcon status = JS.Str "⚪".
Proof.
  intros Hout Hproto. unfold getStatusIcon, JS.get.
  rewrite (icons_lookup_other _ Hout), Hproto. reflexivity.
Qed.

(** C8 (the code departs from it).  The status "constructor" is none of
    the five tags, yet [getStatusIcon] does not answer with the neutral
    icon: [icons[status]] finds the member the object literal inherits
    from [Object.prototype], a function, which is truthy, so the [||]
    default is not taken. *)
Theorem getStatusIcon_inherited_member :
  ("constructor" ∉ status_tags) ∧
  getStatusIcon "constructor" = JS.Fun "Object" ∧
  getStatusIcon "constructor" ≠ JS.Str "⚪".
Proof.
  split; [|split; [reflexivity|]].
  - intros H. by_status H; discriminate H.
  - intros H. vm_compute in H. discriminate H.
Qed.

(** ** Single status update *)

Section SingleUpdate.

Variables (API_URL authToken : string) (d : document).
Variables (appId newStatus : string).

Let commit := confirmStatusUpdate API_URL authToken d appId newStatus.
Let sent :=
  Fetch (status_request API_URL authToken appId newStatus
           (default "" (statusNote d))).
Let notice (text : string) :=
  ShowNotification ("Failed to update status: " +:+ text) "error".

Lemma commit_rejected m st :
  commit (Rejected m) st
  = {| result := Normal (); after := st; effects := [sent; notice m] |}.
Proof. reflexivity. Qed.

Lemma commit_unparseable m st :
  commit (Fulfilled false (Unparseable m)) st
  = {| result := Normal (); after := st; effects := [sent; notice m] |}.
Proof. reflexivity. Qed.

Lemma commit_server_error data e st :
  server_error (Json data) = Some e →
  commit (Fulfilled false (Json data)) st
  = {| result := Normal (); after := st; effects := [sent; notice e] |}.
Proof.
  destruct data as [| | | | | |fields| |]; try discriminate.
  unfold commit, confirmStatusUpdate, server_error, JS.or_else. run_M.
  destruct (JS.field "error" fields) as [v|]; [|discriminate].
  destruct (JS.truthy v); [|discriminate]. by intros [= <-].
Qed.

Lemma commit_no_server_error data st :
  server_error (Json data) = None →
  data ≠ JS.Null → data ≠ JS.Undefined →
  commit (Fulfilled false (Json data)) st
  = {| result := Normal (); after := st;
       effects := [sent; notice "Unknown error"] |}.
Proof.
  destruct data as [| | | | | |fields| |]; try done.
  unfold commit, confirmStatusUpdate, server_error, JS.or_else. run_M.
  destruct (JS.field "error" fields) as [v|]; [|reflexivity].
  by destruct (JS.truthy v).
Qed.

Lemma commit_null st :
  commit (Fulfilled false (Json JS.Null)) st
  = {| result := Normal (); after := st;
       effects :=
         [sent; notice "Cannot read properties of null (reading 'error')"] |}.
Proof. reflexivity. Qed.

Lemma commit_failure_shape o st :
  failed o →
  ∃ text, commit o st
          = {| result := Normal (); after := st;
               effects := [sent; notice text] |}.
Proof.
  destruct o as [[|] [data|m]|m]; try done; intros _.
  - destruct (server_error (Json data)) as [e|] eqn:He.
    + eexists. by apply commit_server_error.
    + destruct data; try (eexists; by apply commit_no_server_error).
      * eexists. reflexivity.
      * eexists. apply commit_null.
  - eexists. apply commit_unparseable.
  - eexists. apply commit_rejected.
Qed.

End SingleUpdate.



(** ** Bulk status update *)

Lemma pending_not_fulfilled (reqs : list promise) :
  Exists (λ p, is_pending p = true) reqs →
  forallb is_fulfilled reqs = false.
Proof.
  induction 1 as [p l Hp|p l _ IH]; cbn.
  - by destruct p.
  - rewrite IH. apply andb_false_r.
Qed.

Lemma unfulfilled_has_pending (reqs : list promise) :
  Forall (λ p, is_rejected p = false) reqs →
  forallb is_fulfilled reqs = false →
  Exists (λ p, is_pending p = true) reqs.
Proof.
  induction 1 as [|p l Hp _ IH]; cbn; [discriminate|].
  destruct p as [|[ok body|m]]; cbn in *.
  - intros _. by left.
  - intros H. right. by apply IH.
  - discriminate.
Qed.

Lemma rejected_stays (reqs : list promise) (i : nat) (p : promise) :
  reqs !! i = Some Pending →
  Exists (λ p, is_rejected p = true) reqs →
  Exists (λ p, is_rejected p = true) (<[i := p]> reqs).
Proof.
  intros Hi (q & Hq & Hrej)%Exists_exists.
  apply list_elem_of_lookup in Hq as [j Hj].
  apply Exists_exists. exists q. split; [|done].
  apply list_elem_of_lookup. exists j.
  rewrite list_lookup_insert_ne; [done|].
  intros ->. rewrite Hi in Hj. by injection Hj as <-.
Qed.

Lemma inserted_is_member {A} (l : list A) (i : nat) (x y : A) :
  l !! i = Some y → x ∈ <[i := x]> l.
Proof.
  intros Hi. apply list_elem_of_lookup. exists i.
  apply list_lookup_insert_eq. by eapply lookup_lt_Some.
Qed.


Lemma fulfilled_and_pending (reqs : list promise) :
  Forall (λ p, is_fulfilled p = true) reqs →
  Exists (λ p, is_pending p = true) reqs → False.
Proof.
  intros Hall (q & Hq & Hpen)%Exists_exists.
  rewrite Forall_forall in Hall. specialize (Hall q Hq).
  by destruct q as [|[]].
Qed.

Lemma fulfilled_are_settled (reqs : list promise) :
  Forall (λ p, is_fulfilled p = true) reqs →
  Forall (λ p, is_pending p = false) reqs.
Proof. intros H. eapply Forall_impl; [exact H|]. by intros [|[]]. Qed.

Lemma forallb_fulfilled (reqs : list promise) :
  forallb is_fulfilled reqs = true →
  Forall (λ p, is_fulfilled p = true) reqs.
Proof.
  intros H. apply Forall_forall. intros p Hp.
  rewrite forallb_forall in H. apply H. by apply list_elem_of_In.
Qed.

Lemma dispatched_are_fetches API_URL authToken newStatus note ids e :
  e ∈ dispatched API_URL authToken newStatus note ids → is_fetch e = true.
Proof.
  unfold dispatched. by intros (appId & -> & _)%list_elem_of_fmap.
Qed.

Lemma fetches_of_dispatched API_URL authToken newStatus note ids :
  filter (λ e, is_fetch e = true)
         (dispatched API_URL authToken newStatus note ids)
  = dispatched API_URL authToken newStatus note ids.
Proof.
  unfold dispatched. induction ids as [|appId ids IH]; [reflexivity|].
  cbn [map]. rewrite filter_cons, decide_True by done. by rewrite IH.
Qed.

Lemma not_in_dispatched API_URL authToken newStatus note ids e :
  is_fetch e = false →
  e ∉ dispatched API_URL authToken newStatus note ids.
Proof.
  intros He Hin. apply dispatched_are_fetches in Hin. congruence.
Qed.

Section BulkRun.

Variables (API_URL authToken : string) (d : document) (st : state).
Variable newStatus : string.

Hypothesis selection_not_empty : selectedApplications st ≠ [].
Hypothesis status_chosen : bulkStatus d = Some newStatus.

Let sent : list effect :=
  dispatched API_URL authToken newStatus (default "" (bulkNote d))
             (selectedApplications st).

(** The shape of a run, with what a suspended run still waits for. *)
Let shape (b : bulk) : Prop :=
  phase d st sent b ∧
  length (requests b) = length (selectedApplications st) ∧
  (awaiting b = true → Exists (λ p, is_pending p = true) (requests b)).

Lemma start_shape : shape (confirmBulkUpdate API_URL authToken d st).
Proof.
  unfold shape, confirmBulkUpdate. rewrite status_chosen. cbv zeta.
  cbn [requests].
  assert (Hpending : Exists (λ p, is_pending p = true)
            (map (λ _ : string, Pending) (selectedApplications st))).
  { destruct (selectedApplications st); [done|by left]. }
  rewrite (pending_not_fulfilled _ Hpending).
  split; [|split; [cbn; by rewrite length_map|done]].
  apply (phase_suspended d st).
  apply Forall_forall. by intros p (? & -> & _)%list_elem_of_fmap.
Qed.

Lemma resume_rejected m b :
  resume d (Some m) b
  = {| app := app b; requests := requests b; awaiting := false;
       trace := trace b ++
         [ShowNotification ("Failed to update applications: " +:+ m)
                           "error"] |}.
Proof. reflexivity. Qed.

Lemma settle_shape b i o b' :
  shape b → settle d i o b = Some b' → shape b'.
Proof.
  intros (Hphase & Hlen & Hwait). unfold settle.
  destruct (requests b !! i) as [[|]|] eqn:Hi; try discriminate.
  intros [= <-].
  destruct Hphase as [reqs Hnone|reqs Hall|reqs m Hrej]; cbn in *.
  - (* suspended *)
    destruct o as [ok body|m].
    + destruct (forallb is_fulfilled (<[i:=Settled (Fulfilled ok body)]> reqs))
        eqn:Hdone.
      * split; [|split; [cbn; by rewrite length_insert|done]].
        apply (phase_completed d st). by apply forallb_fulfilled.
      * assert (Forall (λ p, is_rejected p = false)
                  (<[i:=Settled (Fulfilled ok body)]> reqs))
          by (by apply Forall_insert).
        split; [by apply (phase_suspended d st)|].
        split; [cbn; by rewrite length_insert|].
        intros _. by apply unfulfilled_has_pending.
    + rewrite resume_rejected. cbn.
      split; [|split; [cbn; by rewrite length_insert|done]].
      apply (phase_failed d st). apply Exists_exists.
      exists (Settled (Rejected m)). split; [|done].
      by eapply inserted_is_member.
  - (* completed: nothing is pending any more *)
    exfalso. apply (fulfilled_and_pending reqs Hall).
    apply Exists_exists. exists Pending. split; [|done].
    by eapply list_elem_of_lookup_2.
  - (* failed *)
    split; [|split; [cbn; by rewrite length_insert|done]].
    apply (phase_failed d st). by apply rejected_stays.
Qed.

Lemma reachable_shape b :
  reachable API_URL authToken d st b → shape b.
Proof.
  induction 1 as [|b i o b' _ IH Hstep]; [apply start_shape|].
  by eapply settle_shape.
Qed.

Lemma resumed_effects :
  effects (after_await d None st)
  = ShowNotification
      ("✓ Updated " +:+ pretty (length (selectedApplications st)) +:+
       " application(s)") "success"
    :: (if modal d then [ModalRemove; LoadCompanyApplications]
        else [ShowNotification
                ("Failed to update applications: " +:+
                 "Cannot read properties of null (reading 'remove')")
                "error"]).
Proof. unfold after_await. run_M. by destruct (modal d). Qed.


End BulkRun.

(** A suspended run is never stuck: some request is still pending, and
    a pending request can settle either way. *)
Lemma suspended_can_go_on API_URL authToken d st newStatus b :
  selectedApplications st ≠ [] →
  bulkStatus d = Some newStatus →
  reachable API_URL authToken d st b →
  awaiting b = true →
  ∃ i, requests b !! i = Some Pending ∧
       ∀ o, is_Some (settle d i o b).
Proof.
  intros Hne Hstatus Hreach Hawait.
  destruct (reachable_shape API_URL authToken d st newStatus Hne Hstatus
              b Hreach) as (_ & _ & Hwait).
  destruct (proj1 (Exists_exists _ _) (Hwait Hawait)) as (q & Hq & Hpending).
  destruct q; [|discriminate Hpending].
  apply list_elem_of_lookup in Hq as [i Hi].
  exists i. split; [exact Hi|].
  intros o. unfold settle. rewrite Hi. by eexists.
Qed.

(** C1, as the code has it.  A confirmed bulk update over a non-empty
    selection issues exactly one request per selected id, in selection
    order, each a PUT to the status endpoint of that id, and none later.
    The re-render and the success notification come only once every
    request has been fulfilled, hence settled.  A request that is rejected
    while the call is suspended is reported at once, whatever the state of
    the other requests, and no re-render follows. *)
Theorem confirmBulkUpdate_join
    (API_URL authToken : string) (d : document) (st : state)
    (newStatus : string) :
  selectedApplications st ≠ [] →
  bulkStatus d = Some newStatus →
  ∀ b, reachable API_URL authToken d st b →
    filter (λ e, is_fetch e = true) (trace b)
      = dispatched API_URL authToken newStatus (default "" (bulkNote d))
                   (selectedApplications st) ∧
    length (filter (λ e, is_fetch e = true) (trace b))
      = length (selectedApplications st) ∧
    length (requests b) = length (selectedApplications st) ∧
    (LoadCompanyApplications ∈ trace b → all_fulfilled b ∧ all_settled b) ∧
    (∀ m, ShowNotification m "success" ∈ trace b →
          all_fulfilled b ∧ all_settled b) ∧
    (∀ i m b', awaiting b = true →
               settle d i (Rejected m) b = Some b' →
               trace b' = trace b ++
                 [ShowNotification ("Failed to update applications: " +:+ m)
                                   "error"] ∧
               (LoadCompanyApplications ∉ trace b')).
Proof.
  intros Hne Hstatus b Hreach.
  destruct (reachable_shape API_URL authToken d st newStatus Hne Hstatus
              b Hreach) as (Hphase & Hlen & _).
  set (sent := dispatched API_URL authToken newStatus
                 (default "" (bulkNote d)) (selectedApplications st)) in *.
  assert (Hfetch : ∀ tl,
            filter (λ e, is_fetch e = true) tl = [] →
            filter (λ e, is_fetch e = true) (sent ++ tl) = sent).
  { intros tl Htl. rewrite filter_app, Htl, app_nil_r.
    apply fetches_of_dispatched. }
  assert (Hsent : ∀ e, is_fetch e = false → e ∉ sent)
    by (intros e; apply not_in_dispatched).
  assert (Hfilter : filter (λ e, is_fetch e = true) (trace b) = sent).
  { destruct Hphase as [reqs _|reqs _|reqs m _]; cbn.
    - apply fetches_of_dispatched.
    - apply Hfetch. rewrite resumed_effects. by destruct (modal d).
    - by apply Hfetch. }
  split; [exact Hfilter|].
  split; [rewrite Hfilter; apply length_map|].
  split; [exact Hlen|].
  destruct Hphase as [reqs Hnone|reqs Hall|reqs m' Hrej]; cbn.
  - split; [|split].
    + intros Hin. by apply Hsent in Hin.
    + intros m Hin. by apply Hsent in Hin.
    + intros i m b' _. unfold settle. cbn.
      destruct (reqs !! i) as [[|]|]; try discriminate.
      intros [= <-]. cbn. split; [reflexivity|].
      intros [Hin|Hin]%elem_of_app; [by apply Hsent in Hin|].
      apply list_elem_of_singleton in Hin. discriminate Hin.
  - split; [|split].
    + intros _. split; [exact Hall|by apply fulfilled_are_settled].
    + intros m _. split; [exact Hall|by apply fulfilled_are_settled].
    + intros i m b' Hawait. discriminate Hawait.
  - split; [|split].
    + intros [Hin|Hin]%elem_of_app; [by apply Hsent in Hin|].
      apply list_elem_of_singleton in Hin. discriminate Hin.
    + intros m [Hin|Hin]%elem_of_app; [by apply Hsent in Hin|].
      apply list_elem_of_singleton in Hin. discriminate Hin.
    + intros i m b' Hawait. discriminate Hawait.
Qed.

Lemma reachable_settle_all API_URL authToken d st events :
  ∀ b b', reachable API_URL authToken d st b →
          settle_all d events b = Some b' →
          reachable API_URL authToken d st b'.
Proof.
  induction events as [|[i o] events IH]; cbn [settle_all]; intros b b' Hb Hrun.
  - by injection Hrun as <-.
  - destruct (settle d i o b) as [b1|] eqn:Hstep; [|discriminate Hrun].
    apply (IH b1 b'); [|exact Hrun]. by eapply reach_settle.
Qed.

Lemma two_selected_reach_both_answered :
  reachable "/api" "token" bulk_dialog two_selected both_answered.
Proof.
  apply (reachable_settle_all _ _ _ _
           [ (1, Fulfilled true (Json (JS.Obj [])));
             (0, Fulfilled false
                   (Json (JS.Obj [("error", JS.Str "Forbidden")]))) ]
           two_requested); [apply reach_start|reflexivity].
Qed.

Lemma confirmBulkUpdate_join_witness :
  filter (λ e, is_fetch e = true) (trace both_answered)
    = [ Fetch (status_request "/api" "token" "a" "hired" "");
        Fetch (status_request "/api" "token" "b" "hired" "") ] ∧
  all_settled both_answered ∧
  trace first_rejected
    = trace two_requested ++
      [ShowNotification "Failed to update applications: Failed to fetch"
                        "error"].
Proof.
  pose proof (confirmBulkUpdate_join "/api" "token" bulk_dialog two_selected
                "hired" ltac:(discriminate) eq_refl) as Hjoin.
  destruct (Hjoin both_answered two_selected_reach_both_answered)
    as (Hsent & _ & _ & Hrefresh & _).
  destruct (Hjoin two_requested (reach_start _ _ _ _))
    as (_ & _ & _ & _ & _ & Hfast).
  split; [exact Hsent|split].
  - apply Hrefresh. vm_compute. do 4 right. left.
  - exact (proj1 (Hfast 0 "Failed to fetch" first_rejected eq_refl eq_refl)).
Defined.

(** C1, as stated, fails: with "a" and "b" selected, the rejection of the
    request for "a" brings the failure notification while the request for
    "b" is still pending. *)
Lemma bulk_failure_reported_while_pending :
  ¬ reports_after_all_settled "/api" "token" bulk_dialog two_selected.
Proof.
  intros Hclaim.
  assert (Hreach : reachable "/api" "token" bulk_dialog two_selected
                     first_rejected).
  { apply (reach_settle _ _ _ _ two_requested 0 (Rejected "Failed to fetch"));
      [apply reach_start|reflexivity]. }
  specialize (Hclaim first_rejected Hreach).
  assert (Hsettled : all_settled first_rejected).
  { apply Hclaim. right. vm_compute. do 2 right. by left. }
  vm_compute in Hsettled.
  inversion Hsettled as [|p l _ Hrest]; subst.
  inversion Hrest as [|p l Hpending _]; subst.
  discriminate Hpending.
Qed.


Lemma rejected_then_answered_reachable :
  reachable "/api" "token" bulk_dialog two_selected rejected_then_answered.
Proof.
  apply (reachable_settle_all _ _ _ _
           [ (0, Rejected "Failed to fetch");
             (1, Fulfilled true (Json (JS.Obj []))) ]
           two_requested); [apply reach_start|reflexivity].
Qed.



(** ** Focus trap *)





Section Focus.

Variable takes_focus : element → bool.






Variable searchInput : option element.
Variables (descendants order : list element).



Section Trapped.

Variables (pre post focusable : list element).
Variables (first last_one : element).

Hypothesis inside_modal : ∀ x, x ∈ focusable → x ∈ descendants.
Hypothesis first_focusable : head focusable = Some first.
Hypothesis last_focusable : last focusable = Some last_one.








Hypothesis run_of_order : order = pre ++ focusable ++ post.
Hypothesis order_NoDup : NoDup order.




End Trapped.

End Focus.




(** * Further properties of the applications view *)

Lemma elem_of_Set_add (x y : string) (s : list string) :
  x ∈ Set_add y s ↔ x = y ∨ x ∈ s.
Proof.
  unfold Set_add. case_decide as Hy.
  - split; [by right|]. by intros [->|].
  - rewrite elem_of_app, list_elem_of_singleton. tauto.
Qed.

Lemma elem_of_Set_delete (x y : string) (s : list string) :
  x ∈ Set_delete y s ↔ x ∈ s ∧ x ≠ y.
Proof. unfold Set_delete. rewrite list_elem_of_filter. tauto. Qed.

Lemma NoDup_Set_add (y : string) (s : list string) :
  NoDup s → NoDup (Set_add y s).
Proof.
  intros Hs. unfold Set_add. case_decide as Hy; [done|].
  apply NoDup_app. split; [done|]. split; [|apply NoDup_singleton].
  intros x Hx ->%list_elem_of_singleton. done.
Qed.

Lemma NoDup_Set_delete (y : string) (s : list string) :
  NoDup s → NoDup (Set_delete y s).
Proof. apply NoDup_filter. Qed.

Lemma Set_add_twice (y : string) (s : list string) :
  Set_add y (Set_add y s) = Set_add y s.
Proof.
  unfold Set_add at 1. rewrite decide_True; [done|].
  apply elem_of_Set_add. by left.
Qed.

Lemma Set_delete_twice (y : string) (s : list string) :
  Set_delete y (Set_delete y s) = Set_delete y s.
Proof.
  unfold Set_delete. induction s as [|x s IH]; [done|].
  rewrite filter_cons. case_decide as Hx; [|done].
  rewrite filter_cons, decide_True by done. by rewrite IH.
Qed.

Lemma toggleApplicationSelection_run appId checked st :
  toggleApplicationSelection appId checked st
  = {| result := Normal ();
       after := {| selectedApplications :=
                     (if checked then Set_add appId else Set_delete appId)
                       (selectedApplications st);
                   currentStatusFilter := currentStatusFilter st |};
       effects := [LoadCompanyApplications] |}.
Proof. by destruct checked. Qed.

(** X1.  Ticking or unticking one row makes the membership of that id what
    the checkbox says and leaves every other id as it was; the selection
    stays free of duplicates, doing it twice is doing it once, and the
    view is re-rendered each time. *)
Theorem toggle_sets_membership (appId : string) (checked : bool) (st : state) :
  let r := toggleApplicationSelection appId checked st in
  (appId ∈ selectedApplications (after r) ↔ checked = true) ∧
  (∀ x, x ≠ appId →
        x ∈ selectedApplications (after r) ↔ x ∈ selectedApplications st) ∧
  (NoDup (selectedApplications st) → NoDup (selectedApplications (after r))) ∧
  after (toggleApplicationSelection appId checked (after r)) = after r ∧
  effects r = [LoadCompanyApplications].
Proof.
  cbv zeta. rewrite !toggleApplicationSelection_run. cbn.
  destruct checked.
  - split; [|split; [|split; [|split]]].
    + rewrite elem_of_Set_add. split; [done|]. by left.
    + intros x Hx. rewrite elem_of_Set_add. split; [|by right].
      by intros [?|?].
    + apply NoDup_Set_add.
    + by rewrite Set_add_twice.
    + done.
  - split; [|split; [|split; [|split]]].
    + rewrite elem_of_Set_delete. split; [by intros [_ ?]|done].
    + intros x Hx. rewrite elem_of_Set_delete. tauto.
    + apply NoDup_Set_delete.
    + by rewrite Set_delete_twice.
    + done.
Qed.

Lemma toggle_sets_membership_witness :
  NoDup (selectedApplications
           (after (toggleApplicationSelection "b" true two_selected))) ∧
  ("c" ∈ selectedApplications
           (after (toggleApplicationSelection "b" false two_selected))
   ↔ "c" ∈ selectedApplications two_selected).
Proof.
  split.
  - apply (proj1 (proj2 (proj2
             (toggle_sets_membership "b" true two_selected)))).
    apply (bool_decide_unpack _). by vm_compute.
  - apply (proj1 (proj2 (toggle_sets_membership "b" false two_selected))).
    discriminate.
Defined.

(** ** Select-all over the rendered rows *)

Lemma elem_of_foldl_Set_add (rows : list application) :
  ∀ (sel : list string) (x : string),
    x ∈ foldl (λ s a, Set_add (_id a) s) sel rows
    ↔ x ∈ sel ∨ x ∈ map _id rows.
Proof.
  induction rows as [|a rows IH]; intros sel x; cbn.
  - rewrite elem_of_nil. tauto.
  - rewrite IH, elem_of_Set_add, elem_of_cons. tauto.
Qed.

Lemma elem_of_foldl_Set_delete (rows : list application) :
  ∀ (sel : list string) (x : string),
    x ∈ foldl (λ s a, Set_delete (_id a) s) sel rows
    ↔ x ∈ sel ∧ x ∉ map _id rows.
Proof.
  induction rows as [|a rows IH]; intros sel x; cbn.
  - rewrite elem_of_nil. tauto.
  - rewrite IH, elem_of_Set_delete, not_elem_of_cons. tauto.
Qed.


Lemma match_quoted_empty_id : JS.match_quoted (handler_text "") = None.
Proof. reflexivity. Qed.

Lemma id_char_no_quote (c : ascii) :
  id_char c = true → Ascii.eqb c "'"%char = false.
Proof.
  destruct c as [[] [] [] [] [] [] [] []]; vm_compute; congruence.
Qed.

Lemma carried_verbatim_quote_free (id : string) :
  carried_verbatim id = true → JS.quote_free id = true.
Proof.
  induction id as [|c id IH]; cbn; [done|].
  intros [Hc Hid]%andb_true_iff.
  by rewrite (id_char_no_quote c Hc), IH.
Qed.

Lemma checkbox_onchange_plain (a : application) :
  plain_id a → checkbox_onchange a = Some (handler_text (_id a)).
Proof. intros [_ Hid]. unfold checkbox_onchange. by rewrite Hid. Qed.

Lemma checkboxes_plain (rows : list application) :
  Forall plain_id rows →
  mapM checkbox_onchange rows = Some (map (λ a, handler_text (_id a)) rows).
Proof.
  intros Hrows. apply mapM_Some. rewrite Forall2_fmap_r.
  apply Forall_Forall2_diag. eapply Forall_impl; [exact Hrows|].
  intros a Ha. by apply checkbox_onchange_plain.
Qed.

Section SelectAll.

Variable checked : bool.

(** The body of the [forEach] in [toggleSelectAll]. *)
Let each (cb : string) : M unit :=
  match JS.match_quoted cb with
  | None => throw "Cannot read properties of null (reading '1')"
  | Some appId =>
      if checked then update_selected (Set_add appId)
      else update_selected (Set_delete appId)
  end.

Let pick (s : list string) (a : application) : list string :=
  (if checked then Set_add (_id a) else Set_delete (_id a)) s.

Let text (a : application) : string := handler_text (_id a).

Lemma each_plain a st :
  plain_id a →
  each (text a) st
  = {| result := Normal ();
       after := {| selectedApplications := pick (selectedApplications st) a;
                   currentStatusFilter := currentStatusFilter st |};
       effects := [] |}.
Proof.
  intros [Hne Hid]. unfold each, pick, text.
  rewrite (match_quoted_checkbox (_id a) Hne
             (carried_verbatim_quote_free _ Hid)).
  by destruct checked.
Qed.

Lemma each_unreadable st :
  each (handler_text "") st
  = {| result := Throw "Cannot read properties of null (reading '1')";
       after := st; effects := [] |}.
Proof. unfold each. by rewrite match_quoted_empty_id. Qed.

Lemma forEach_plain rows :
  Forall plain_id rows →
  ∀ st, forEach (map text rows) each st
        = {| result := Normal ();
             after := {| selectedApplications :=
                           foldl pick (selectedApplications st) rows;
                         currentStatusFilter := currentStatusFilter st |};
             effects := [] |}.
Proof.
  induction 1 as [|a rows Ha _ IH]; intros st; cbn [map forEach foldl].
  - by destruct st.
  - unfold mbind, M_bind, bind. rewrite (each_plain a st Ha). cbn.
    by rewrite IH.
Qed.

Lemma forEach_unreadable before (rest : list string) :
  Forall plain_id before →
  ∀ st, forEach (map text before ++ handler_text "" :: rest) each st
        = {| result := Throw "Cannot read properties of null (reading '1')";
             after := {| selectedApplications :=
                           foldl pick (selectedApplications st) before;
                         currentStatusFilter := currentStatusFilter st |};
             effects := [] |}.
Proof.
  intros Hbefore.
  induction Hbefore as [|b before Hb _ IH]; intros st;
    cbn [List.app map forEach foldl]; unfold mbind, M_bind, bind.
  - rewrite (each_unreadable st). cbn. by destruct st.
  - rewrite (each_plain b st Hb). cbn. by rewrite IH.
Qed.

Lemma toggleSelectAll_plain rows st :
  Forall plain_id rows →
  toggleSelectAll (map text rows) checked st
  = {| result := Normal ();
       after := {| selectedApplications :=
                     foldl pick (selectedApplications st) rows;
                   currentStatusFilter := currentStatusFilter st |};
       effects := [LoadCompanyApplications] |}.
Proof.
  intros Hrows. unfold toggleSelectAll, mbind, M_bind, bind.
  fold each. by rewrite (forEach_plain rows Hrows st).
Qed.

Lemma toggleSelectAll_unreadable before (rest : list string) st :
  Forall plain_id before →
  toggleSelectAll (map text before ++ handler_text "" :: rest) checked st
  = {| result := Throw "Cannot read properties of null (reading '1')";
       after := {| selectedApplications :=
                     foldl pick (selectedApplications st) before;
                   currentStatusFilter := currentStatusFilter st |};
       effects := [] |}.
Proof.
  intros Hbefore. unfold toggleSelectAll, mbind, M_bind, bind.
  fold each. by rewrite (forEach_unreadable before rest Hbefore st).
Qed.

End SelectAll.


Lemma render_rows_after st st' applications :
  currentStatusFilter st' = currentStatusFilter st →
  rows_of (render st' applications) = rows_of (render st applications).
Proof.
  intros Hf. unfold render. rewrite Hf.
  by destruct (length applications =? 0)%nat.
Qed.



(** X3.  Unticking "select all" over such rows removes exactly the visible
    ids from the selection and asks for the re-render; when nothing
    outside the visible rows was selected, the selection ends empty and
    the re-rendered view shows neither a ticked header checkbox nor the
    bulk buttons. *)
Theorem unselect_all_removes_visible (st : state) (applications : list application) :
  let v := render st applications in
  Forall plain_id (rows_of v) →
  ∃ checkboxes,
    row_checkboxes v = Some checkboxes ∧
    length checkboxes = length (rows_of v) ∧
    let r := toggleSelectAll checkboxes false st in
    result r = Normal () ∧
    effects r = [LoadCompanyApplications] ∧
    (∀ x, x ∈ selectedApplications (after r)
          ↔ x ∈ selectedApplications st ∧ x ∉ map _id (rows_of v)) ∧
    ((∀ x, x ∈ selectedApplications st → x ∈ map _id (rows_of v)) →
     selectedApplications (after r) = [] ∧
     select_all_checked_of (render (after r) applications) = false ∧
     bulk_buttons_of (render (after r) applications) = false).
Proof.
  intros v Hplain. eexists. split; [exact (checkboxes_plain _ Hplain)|].
  split; [by rewrite length_map|]. cbv zeta.
  rewrite (toggleSelectAll_plain false (rows_of v) st Hplain). cbn.
  split; [done|]. split; [done|]. split.
  - intros x. apply elem_of_foldl_Set_delete.
  - intros Hsub.
    assert (Hnil : foldl (λ s a, Set_delete (_id a) s)
                     (selectedApplications st) (rows_of v) = []).
    { apply elem_of_nil_inv. intros x Hx.
      apply elem_of_foldl_Set_delete in Hx as [Hin Hout].
      by apply Hout, Hsub. }
    rewrite Hnil. split; [done|].
    unfold render. cbn.
    destruct (length applications =? 0)%nat; [done|]. cbn.
    by destruct (filteredApps (currentStatusFilter st) applications).
Qed.

Lemma unselect_all_removes_visible_witness :
  let apps := [ {| _id := "a-1"; status := "pending" |};
                {| _id := "b_2"; status := "hired" |} ] in
  let st := {| selectedApplications := ["a-1"];
               currentStatusFilter := "pending" |} in
  ∃ checkboxes,
    row_checkboxes (render st apps) = Some checkboxes ∧
    selectedApplications (after (toggleSelectAll checkboxes false st)) = [].
Proof.
  intros apps st.
  assert (Hplain : Forall plain_id (rows_of (render st apps)))
    by (repeat constructor; discriminate).
  destruct (unselect_all_removes_visible st apps Hplain)
    as (checkboxes & Hrows & _ & _ & _ & _ & Hempty).
  exists checkboxes. split; [exact Hrows|].
  apply Hempty.
  intros x ->%list_elem_of_singleton. by left.
Defined.

(** X4.  A rendered row with an empty id stops "select all": the pattern
    finds no quoted text in its handler, the [[1]] on [null] throws, the
    rows before it (their ids non-empty and made of letters, digits, [-]
    and [_]) have been handled, the checkboxes after it have not, whatever
    they are, and the re-render is not asked for. *)
Theorem select_all_stops_at_row_without_id
    (before : list application) (a : application) (rest : list string)
    (checked : bool) (st : state) :
  Forall plain_id before →
  _id a = "" →
  ∃ handled cb,
    mapM checkbox_onchange before = Some handled ∧
    checkbox_onchange a = Some cb ∧
    let r := toggleSelectAll (handled ++ cb :: rest) checked st in
    result r = Throw "Cannot read properties of null (reading '1')" ∧
    effects r = [] ∧
    currentStatusFilter (after r) = currentStatusFilter st ∧
    (∀ x, x ∈ selectedApplications (after r)
          ↔ if checked
            then x ∈ selectedApplications st ∨ x ∈ map _id before
            else x ∈ selectedApplications st ∧ x ∉ map _id before) ∧
    after r = after (toggleSelectAll handled checked st).
Proof.
  intros Hbefore Ha.
  exists (map (λ b, handler_text (_id b)) before), (handler_text "").
  split; [exact (checkboxes_plain _ Hbefore)|].
  split; [unfold checkbox_onchange; by rewrite Ha|]. cbv zeta.
  rewrite (toggleSelectAll_unreadable checked before rest st Hbefore).
  rewrite (toggleSelectAll_plain checked before st Hbefore). cbn.
  split; [done|]. split; [done|]. split; [done|]. split; [|done].
  intros x. destruct checked.
  - apply elem_of_foldl_Set_add.
  - apply elem_of_foldl_Set_delete.
Qed.

Lemma select_all_stops_at_row_without_id_witness :
  let before := [ {| _id := "a-1"; status := "pending" |} ] in
  let a := {| _id := ""; status := "pending" |} in
  ∃ handled cb,
    mapM checkbox_onchange before = Some handled ∧
    checkbox_onchange a = Some cb ∧
    let r := toggleSelectAll (handled ++ cb :: ["no handler text"]) true
               initial in
    selectedApplications (after r) = ["a-1"] ∧ effects r = [].
Proof.
  intros before a.
  destruct (select_all_stops_at_row_without_id before a ["no handler text"]
              true initial)
    as (handled & cb & Hhandled & Hcb & _ & Heff & _ & _ & Hafter).
  - repeat constructor; discriminate.
  - reflexivity.
  - exists handled, cb. split; [exact Hhandled|]. split; [exact Hcb|].
    cbv zeta. split; [|exact Heff].
    injection Hhandled as <-.
    etrans; [exact (f_equal selectedApplications Hafter)|reflexivity].
Defined.

(** ** Tabs and rows *)

Lemma count_status_rows (tag : string) (applications : list application) :
  tag ≠ "all" →
  count_status tag applications = length (filteredApps tag applications).
Proof.
  intros Htag. unfold count_status, filteredApps. by rewrite decide_False.
Qed.

(** X5.  On a non-empty list, the number shown on the active tab is the
    number of rows in the table, for each of the six tabs. *)
Theorem active_tab_counts_rows (st : state) (applications : list application) :
  applications ≠ [] →
  currentStatusFilter st ∈ filter_tags →
  ∃ tabs, stats_of (render st applications) = Some tabs ∧
          tab_count tabs (currentStatusFilter st)
          = Some (length (rows_of (render st applications))).
Proof.
  intros Hne Htag. exists (compute_stats applications).
  unfold render.
  destruct (length applications =? 0)%nat eqn:Hlen;
    [by destruct applications|].
  cbn [stats_of rows_of]. split; [done|].
  unfold filter_tags, status_tags in Htag.
  repeat (apply elem_of_cons in Htag as [Htag|Htag]);
    [ .. | by apply elem_of_nil in Htag ];
    rewrite Htag; unfold tab_count;
    repeat case_decide; try congruence;
    try (cbn [compute_stats pending shortlisted interviewed hired rejected];
         by rewrite count_status_rows).
  reflexivity.
Qed.

Lemma active_tab_counts_rows_witness :
  let apps := [ {| _id := "a"; status := "pending" |};
                {| _id := "b"; status := "hired" |};
                {| _id := "c"; status := "pending" |} ] in
  let st := {| selectedApplications := []; currentStatusFilter := "pending" |} in
  ∃ tabs, stats_of (render st apps) = Some tabs ∧
          tab_count tabs "pending" = Some 2.
Proof.
  intros apps st.
  refine (active_tab_counts_rows st apps ltac:(discriminate) _).
  unfold filter_tags, status_tags. cbn. do 1 right. by left.
Defined.

Lemma filterByStatus_run (tag : string) (st : state) :
  filterByStatus tag st
  = {| result := Normal ();
       after := {| selectedApplications := []; currentStatusFilter := tag |};
       effects := [LoadCompanyApplications] |}.
Proof. by destruct st. Qed.

(** X6.  Right after a change of filter, whatever list arrives, the table
    shows only records of the chosen status (all records under "all"),
    the header checkbox is not ticked, even over an empty table, and the
    bulk buttons are hidden. *)
Theorem view_after_filter_change
    (tag : string) (st : state) (applications : list application) :
  let v := render (after (filterByStatus tag st)) applications in
  (tag ≠ "all" → Forall (λ a, status a = tag) (rows_of v)) ∧
  (tag = "all" → rows_of v = applications) ∧
  select_all_checked_of v = false ∧
  bulk_buttons_of v = false.
Proof.
  rewrite filterByStatus_run. cbn. unfold render. cbn.
  destruct applications as [|a l]; cbn.
  - by repeat split.
  - split; [|split; [|split]].
    + intros Htag. unfold filteredApps. rewrite decide_False by done.
      apply Forall_forall. intros x Hx.
      by apply list_elem_of_filter in Hx as [Hx _].
    + by intros ->.
    + by destruct (filteredApps tag (a :: l)).
    + reflexivity.
Qed.

Lemma view_after_filter_change_witness :
  Forall (λ a, status a = "hired")
    (rows_of (render (after (filterByStatus "hired" two_selected))
                [ {| _id := "a"; status := "pending" |};
                  {| _id := "b"; status := "hired" |} ])).
Proof.
  exact (proj1 (view_after_filter_change "hired" two_selected
                  [ {| _id := "a"; status := "pending" |};
                    {| _id := "b"; status := "hired" |} ])
               ltac:(discriminate)).
Defined.

(** ** More on the single and the bulk update *)

Section Commit.

Variables (API_URL authToken : string) (d : document).
Variables (appId newStatus : string).

Let commit := confirmStatusUpdate API_URL authToken d appId newStatus.
Let sent :=
  Fetch (status_request API_URL authToken appId newStatus
           (default "" (statusNote d))).

Lemma commit_success b st :
  commit (Fulfilled true b) st
  = {| result := Normal (); after := st;
       effects :=
         sent :: ShowNotification ("✓ Status updated to " +:+ newStatus)
                                  "success"
         :: (if modal d then [ModalRemove; LoadCompanyApplications]
             else [ShowNotification
                     ("Failed to update status: " +:+
                      "Cannot read properties of null (reading 'remove')")
                     "error"]) |}.
Proof.
  unfold commit, confirmStatusUpdate. run_M. by destruct (modal d).
Qed.

End Commit.

(** X7.  Whatever the outcome, a commit sends exactly one request, first
    of all: a PUT to the status endpoint of that record, with the chosen
    status and the note of the dialog (empty without the text area).  It
    always ends in a notification, never throws, and never touches the
    selection or the filter. *)
Theorem commit_sends_one_request
    (API_URL authToken : string) (d : document) (appId newStatus : string)
    (o : settled) (st : state) :
  let r := confirmStatusUpdate API_URL authToken d appId newStatus o st in
  result r = Normal () ∧
  after r = st ∧
  ∃ rest,
    effects r
    = Fetch {| url := API_URL +:+ "/company/applications/" +:+ appId +:+
                      "/status";
               method := "PUT";
               authorization := "Bearer " +:+ authToken;
               body_status := newStatus;
               body_note := default "" (statusNote d) |} :: rest ∧
    Forall (λ e, is_fetch e = false) rest ∧
    Exists (λ e, is_notification e = true) rest.
Proof.
  cbv zeta.
  destruct o as [[|] b|m].
  - rewrite commit_success. repeat split.
    eexists. split; [reflexivity|].
    destruct (modal d); split; repeat constructor.
  - destruct (commit_failure_shape API_URL authToken d appId newStatus
                (Fulfilled false b) st I) as [text ->].
    repeat split. eexists. split; [reflexivity|].
    split; repeat constructor.
  - rewrite commit_rejected. repeat split.
    eexists. split; [reflexivity|]. split; repeat constructor.
Qed.

(** X8.  The list is reloaded exactly when the request was answered with
    a success status and the document held a [.modal] element as the
    commit started; [remove()] is called, on the first such element of the
    document, in exactly these runs. *)
Theorem commit_reloads_iff_success
    (API_URL authToken : string) (d : document) (appId newStatus : string)
    (o : settled) (st : state) :
  let r := confirmStatusUpdate API_URL authToken d appId newStatus o st in
  (LoadCompanyApplications ∈ effects r
   ↔ (∃ b, o = Fulfilled true b) ∧ modal d = true) ∧
  (ModalRemove ∈ effects r ↔ LoadCompanyApplications ∈ effects r).
Proof.
  cbv zeta.
  assert (Hno : ∀ e1 e2 e3 : effect,
            e3 ≠ e1 → e3 ≠ e2 → e3 ∉ [e1; e2]).
  { intros e1 e2 e3 H1 H2 H.
    repeat (apply elem_of_cons in H as [H|H]; [done|]).
    by apply elem_of_nil in H. }
  destruct o as [[|] b|m].
  - rewrite commit_success. cbn. destruct (modal d).
    + split; split; intros _.
      * split; [by exists b|done].
      * do 3 right. by left.
      * do 3 right. by left.
      * do 2 right. by left.
    + split; split.
      * intros H. repeat (apply elem_of_cons in H as [H|H]; [done|]).
        by apply elem_of_nil in H.
      * by intros [_ ?].
      * intros H. repeat (apply elem_of_cons in H as [H|H]; [done|]).
        by apply elem_of_nil in H.
      * intros H. repeat (apply elem_of_cons in H as [H|H]; [done|]).
        by apply elem_of_nil in H.
  - destruct (commit_failure_shape API_URL authToken d appId newStatus
                (Fulfilled false b) st I) as [text ->]. cbn.
    split; split; try (by intros [[? [=]] _]); intros H;
      by apply Hno in H.
  - rewrite commit_rejected. cbn.
    split; split; try (by intros [[? [=]] _]); intros H;
      by apply Hno in H.
Qed.

Lemma commit_reloads_iff_success_witness :
  LoadCompanyApplications
  ∈ effects (confirmStatusUpdate "/api" "token" bulk_dialog "a" "hired"
               (Fulfilled true (Json JS.Null)) initial).
Proof.
  apply (proj1 (commit_reloads_iff_success "/api" "token" bulk_dialog
                  "a" "hired" (Fulfilled true (Json JS.Null)) initial)).
  split; [by eexists|reflexivity].
Defined.

Lemma no_notification_dispatched API_URL authToken newStatus note ids :
  filter (λ e, is_notification e = true)
         (dispatched API_URL authToken newStatus note ids) = [].
Proof.
  unfold dispatched. induction ids as [|appId ids IH]; [reflexivity|].
  cbn [map]. by rewrite filter_cons, decide_False.
Qed.

(** X9.  [confirmBulkUpdate] has no guard of its own: over an empty
    selection, the document holding a [.modal] element, it sends nothing,
    does not wait, and at once reports "Updated 0 application(s)", calls
    [remove()] on the first [.modal] element of the document and asks for
    the re-render; nothing can settle afterwards. *)
Theorem confirmBulkUpdate_nothing_selected
    (API_URL authToken : string) (d : document) (st : state)
    (newStatus : string) :
  selectedApplications st = [] →
  bulkStatus d = Some newStatus →
  modal d = true →
  let b := confirmBulkUpdate API_URL authToken d st in
  requests b = [] ∧
  awaiting b = false ∧
  trace b = [ ShowNotification "✓ Updated 0 application(s)" "success";
              ModalRemove; LoadCompanyApplications ] ∧
  app b = st ∧
  (∀ i o, settle d i o b = None).
Proof.
  intros Hsel Hstatus Hmodal. unfold confirmBulkUpdate.
  rewrite Hstatus, Hsel. cbn. unfold resume, after_await. run_M.
  rewrite Hsel, Hmodal. cbn.
  repeat split.
  destruct st as [sel tag]. cbn in Hsel. by subst sel.
Qed.

Lemma confirmBulkUpdate_nothing_selected_witness :
  trace (confirmBulkUpdate "/api" "token" bulk_dialog initial)
  = [ ShowNotification "✓ Updated 0 application(s)" "success";
      ModalRemove; LoadCompanyApplications ].
Proof.
  exact (proj1 (proj2 (proj2
           (confirmBulkUpdate_nothing_selected "/api" "token" bulk_dialog
              initial "hired" eq_refl eq_refl eq_refl)))).
Defined.

(** X10.  A bulk run over a non-empty selection, the dialog being open,
    shows no notification while it is suspended and exactly one once it
    has resumed; from then on a request that settles changes neither the
    effects nor the dashboard state. *)
Theorem bulk_run_notifies_once
    (API_URL authToken : string) (d : document) (st : state)
    (newStatus : string) :
  selectedApplications st ≠ [] →
  bulkStatus d = Some newStatus →
  modal d = true →
  ∀ b, reachable API_URL authToken d st b →
    length (filter (λ e, is_notification e = true) (trace b))
      = (if awaiting b then 0 else 1) ∧
    (awaiting b = false →
     ∀ i o b', settle d i o b = Some b' →
               trace b' = trace b ∧ app b' = app b ∧ awaiting b' = false).
Proof.
  intros Hne Hstatus Hmodal b Hreach.
  destruct (reachable_shape API_URL authToken d st newStatus Hne Hstatus
              b Hreach) as (Hphase & _ & _).
  split.
  - destruct Hphase as [reqs _|reqs _|reqs m _]; cbn.
    + by rewrite no_notification_dispatched.
    + rewrite filter_app, no_notification_dispatched, resumed_effects, Hmodal.
      reflexivity.
    + by rewrite filter_app, no_notification_dispatched.
  - intros Hawait i o b'. unfold settle.
    destruct (requests b !! i) as [[|]|]; try discriminate.
    rewrite Hawait. by intros [= <-].
Qed.

Lemma bulk_run_notifies_once_witness :
  length (filter (λ e, is_notification e = true) (trace rejected_then_answered))
  = 1.
Proof.
  exact (proj1 (bulk_run_notifies_once "/api" "token" bulk_dialog
                  two_selected "hired" ltac:(discriminate) eq_refl eq_refl
                  rejected_then_answered rejected_then_answered_reachable)).
Defined.

(** * Arrow-key navigation *)

Lemma item_at_in_range (its : list element) (i : nat) :
  i < length its →
  ∃ e, item_at its (Int (Z.of_nat i)) = Some e ∧ e ∈ its.
Proof.
  intros Hi. destruct (lookup_lt_is_Some_2 its i Hi) as [e He].
  exists e. split; [|by eapply list_elem_of_lookup_2].
  unfold item_at. rewrite (proj2 (Z.leb_le 0 (Z.of_nat i))) by lia.
  by rewrite Nat2Z.id.
Qed.

Lemma index_as_nat (z n : Z) :
  (0 ≤ z < n)%Z → ∃ i, z = Z.of_nat i ∧ (Z.of_nat i < n)%Z.
Proof. intros Hz. exists (Z.to_nat z). lia. Qed.

(** What each navigation key makes of an index that points at an item. *)
Lemma on_menu_key_in_range (key : string) (m : menu) (i : nat) :
  currentIndex m = Int (Z.of_nat i) → i < length (items m) →
  key ∈ menu_keys →
  ∃ j, (on_menu_key key m).1
       = {| items := items m; currentIndex := Int (Z.of_nat j) |} ∧
       j < length (items m) ∧
       (on_menu_key key m).2 = focus_item (items m) (Int (Z.of_nat j)) ∧
       (key = "ArrowDown" → Z.of_nat j
          = ((Z.of_nat i + 1) mod Z.of_nat (length (items m)))%Z) ∧
       (key = "ArrowUp" → Z.of_nat j
          = ((Z.of_nat i - 1) mod Z.of_nat (length (items m)))%Z) ∧
       (key = "Home" → j = 0) ∧
       (key = "End" → j = length (items m) - 1).
Proof.
  intros Hidx Hi Hkey. unfold on_menu_key. rewrite Hidx.
  set (n := Z.of_nat (length (items m))).
  assert (Hn : (0 < n)%Z) by lia.
  unfold menu_keys in Hkey.
  repeat (apply elem_of_cons in Hkey as [Hkey|Hkey]);
    [ .. | by apply elem_of_nil in Hkey ]; subst key;
    repeat (case_decide; try congruence); cbn [plus remainder fst snd].
  - rewrite (proj2 (Z.eqb_neq n 0)) by lia.
    rewrite Z.rem_mod_nonneg by lia.
    destruct (index_as_nat ((Z.of_nat i + 1) mod n) n) as (j & Hj & Hjn);
      [by apply Z.mod_pos_bound|].
    exists j. rewrite Hj. repeat split; try done; lia.
  - rewrite (proj2 (Z.eqb_neq n 0)) by lia.
    rewrite Z.rem_mod_nonneg by lia.
    destruct (index_as_nat ((Z.of_nat i + -1 + n) mod n) n) as (j & Hj & Hjn);
      [by apply Z.mod_pos_bound|].
    exists j. rewrite Hj. repeat split; try done; try lia.
    intros _. rewrite <- Hj.
    replace (Z.of_nat i + -1 + n)%Z with (Z.of_nat i - 1 + 1 * n)%Z by lia.
    by rewrite Z_mod_plus_full.
  - exists 0. repeat split; try done; lia.
  - exists (length (items m) - 1).
    replace (Z.of_nat (length (items m) - 1)) with (n - 1)%Z by lia.
    repeat split; try done; lia.
Qed.

Lemma on_menu_key_other (key : string) (m : menu) :
  key ∉ menu_keys → on_menu_key key m = (m, Ignored).
Proof.
  unfold menu_keys. rewrite !not_elem_of_cons. intros (? & ? & ? & ? & _).
  unfold on_menu_key. by rewrite !decide_False.
Qed.

Lemma on_menu_key_keeps_range (key : string) (m : menu) :
  in_range m →
  in_range (on_menu_key key m).1 ∧ items (on_menu_key key m).1 = items m.
Proof.
  intros (i & Hidx & Hi).
  destruct (decide (key ∈ menu_keys)) as [Hkey|Hkey].
  - destruct (on_menu_key_in_range key m i Hidx Hi Hkey)
      as (j & -> & Hj & _).
    split; [by exists j|done].
  - rewrite (on_menu_key_other key m Hkey). split; [by exists i|done].
Qed.

Lemma on_menu_keys_keep_range (keys : list string) :
  ∀ m, in_range m →
       in_range (on_menu_keys keys m) ∧ items (on_menu_keys keys m) = items m.
Proof.
  induction keys as [|key keys IH]; intros m Hm; [done|].
  cbn [on_menu_keys foldl].
  destruct (on_menu_key_keeps_range key m Hm) as [Hm' Hitems].
  destruct (IH _ Hm') as [Hr Hi]. split; [exact Hr|].
  unfold on_menu_keys in Hi. by rewrite Hi.
Qed.

(** X11.  In a menu with at least one item, whatever keys were pressed
    before, the index points at an item, and each of ArrowDown, ArrowUp,
    Home and End focuses an item of the menu without throwing; any other
    key is ignored. *)
Theorem menu_navigation_in_range
    (its : list element) (keys : list string) (key : string) :
  its ≠ [] →
  let m := on_menu_keys keys (opened its) in
  in_range m ∧
  items m = its ∧
  (key ∈ menu_keys →
   ∃ e, (on_menu_key key m).2 = Focused e ∧ e ∈ its ∧
        item_at its (currentIndex (on_menu_key key m).1) = Some e) ∧
  (key ∉ menu_keys → on_menu_key key m = (m, Ignored)).
Proof.
  intros Hne m.
  assert (Hopen : in_range (opened its)).
  { exists 0. split; [done|]. destruct its; [done|cbn; lia]. }
  destruct (on_menu_keys_keep_range keys (opened its) Hopen) as [Hm Hitems].
  fold m in Hm, Hitems. cbn in Hitems.
  split; [exact Hm|]. split; [exact Hitems|]. split.
  - intros Hkey. destruct Hm as (i & Hidx & Hi).
    destruct (on_menu_key_in_range key m i Hidx Hi Hkey)
      as (j & Hm' & Hj & Hfocus & _).
    destruct (item_at_in_range (items m) j Hj) as (e & He & Hin).
    exists e. rewrite Hfocus, Hm'. unfold focus_item. rewrite He.
    cbn. by rewrite <- Hitems.
  - apply on_menu_key_other.
Qed.

Lemma menu_navigation_in_range_witness :
  ∃ e, (on_menu_key "ArrowDown"
          (on_menu_keys ["End"; "x"] (opened [10; 11; 12]))).2 = Focused e ∧
       e ∈ [10; 11; 12].
Proof.
  destruct (proj1 (proj2 (proj2
              (menu_navigation_in_range [10; 11; 12] ["End"; "x"] "ArrowDown"
                 ltac:(discriminate))))) as (e & He & Hin & _).
  - unfold menu_keys. by left.
  - by exists e.
Defined.

(** X12.  In a menu whose index points at an item, ArrowUp undoes
    ArrowDown and ArrowDown undoes ArrowUp; ArrowDown on the last item
    leads to the first and ArrowUp on the first to the last. *)
Theorem menu_arrows_are_inverse (m : menu) :
  in_range m →
  (on_menu_key "ArrowUp" (on_menu_key "ArrowDown" m).1).1 = m ∧
  (on_menu_key "ArrowDown" (on_menu_key "ArrowUp" m).1).1 = m ∧
  (currentIndex m = Int (Z.of_nat (length (items m)) - 1) →
   currentIndex (on_menu_key "ArrowDown" m).1 = Int 0) ∧
  (currentIndex m = Int 0 →
   currentIndex (on_menu_key "ArrowUp" m).1
   = Int (Z.of_nat (length (items m)) - 1)).
Proof.
  intros (i & Hidx & Hi).
  set (n := Z.of_nat (length (items m))).
  assert (Hdown : "ArrowDown" ∈ menu_keys) by (unfold menu_keys; by left).
  assert (Hup : "ArrowUp" ∈ menu_keys)
    by (unfold menu_keys; right; by left).
  destruct (on_menu_key_in_range "ArrowDown" m i Hidx Hi Hdown)
    as (j & Hd & Hj & _ & Hjd & _).
  destruct (on_menu_key_in_range "ArrowUp" m i Hidx Hi Hup)
    as (k & Hu & Hk & _ & _ & Hku & _).
  specialize (Hjd eq_refl). specialize (Hku eq_refl). fold n in Hjd, Hku.
  assert (Hm : m = {| items := items m; currentIndex := Int (Z.of_nat i) |})
    by (destruct m; cbn in *; by subst).
  split; [|split; [|split]].
  - rewrite Hd.
    destruct (on_menu_key_in_range "ArrowUp"
                {| items := items m; currentIndex := Int (Z.of_nat j) |}
                j eq_refl Hj Hup) as (i' & -> & Hi' & _ & _ & Hback & _).
    specialize (Hback eq_refl). cbn in Hback. fold n in Hback.
    etrans; [|symmetry; exact Hm]. cbn. do 2 f_equal. rewrite Hback, Hjd.
    rewrite Zminus_mod_idemp_l.
    replace (Z.of_nat i + 1 - 1)%Z with (Z.of_nat i) by lia.
    apply Z.mod_small. lia.
  - rewrite Hu.
    destruct (on_menu_key_in_range "ArrowDown"
                {| items := items m; currentIndex := Int (Z.of_nat k) |}
                k eq_refl Hk Hdown) as (i' & -> & Hi' & _ & Hback & _).
    specialize (Hback eq_refl). cbn in Hback. fold n in Hback.
    etrans; [|symmetry; exact Hm]. cbn. do 2 f_equal. rewrite Hback, Hku.
    rewrite Zplus_mod_idemp_l.
    replace (Z.of_nat i - 1 + 1)%Z with (Z.of_nat i) by lia.
    apply Z.mod_small. lia.
  - intros Hlast. rewrite Hd. cbn. f_equal. rewrite Hjd.
    rewrite Hidx in Hlast. injection Hlast as Hlast. fold n in Hlast.
    replace (Z.of_nat i + 1)%Z with (0 + 1 * n)%Z by lia.
    rewrite Z_mod_plus_full. apply Z.mod_0_l. lia.
  - intros Hfirst. rewrite Hu. cbn. f_equal. rewrite Hku.
    rewrite Hidx in Hfirst. injection Hfirst as Hfirst.
    replace (Z.of_nat i - 1)%Z with (n - 1 + (-1) * n)%Z by lia.
    rewrite Z_mod_plus_full. apply Z.mod_small. lia.
Qed.

Lemma menu_arrows_are_inverse_witness :
  currentIndex (on_menu_key "ArrowUp" (opened [10; 11; 12])).1 = Int 2.
Proof.
  refine (proj2 (proj2 (proj2 (menu_arrows_are_inverse (opened [10; 11; 12])
                                 _))) eq_refl).
  exists 0. split; [reflexivity|cbn; lia].
Defined.

Lemma arrow_down_times (k : nat) :
  ∀ (m : menu) (i : nat),
    currentIndex m = Int (Z.of_nat i) → i < length (items m) →
    on_menu_keys (replicate k "ArrowDown") m
    = {| items := items m;
         currentIndex :=
           Int ((Z.of_nat i + Z.of_nat k) mod Z.of_nat (length (items m))) |}.
Proof.
  assert (Hdown : "ArrowDown" ∈ menu_keys) by (unfold menu_keys; by left).
  induction k as [|k IH]; intros m i Hidx Hi.
  - cbn. rewrite Z.add_0_r, Z.mod_small by lia.
    destruct m; cbn in *; by subst.
  - cbn [replicate on_menu_keys foldl].
    destruct (on_menu_key_in_range "ArrowDown" m i Hidx Hi Hdown)
      as (j & Hm' & Hj & _ & Hjd & _).
    specialize (Hjd eq_refl). rewrite Hm'.
    fold (on_menu_keys (replicate k "ArrowDown")
            {| items := items m; currentIndex := Int (Z.of_nat j) |}).
    rewrite (IH {| items := items m; currentIndex := Int (Z.of_nat j) |}
               j eq_refl Hj). cbn. do 2 f_equal.
    rewrite Hjd, Zplus_mod_idemp_l. f_equal. lia.
Qed.

(** X13.  In a menu whose index points at an item, as many ArrowDown
    presses as the menu has items lead back to where they started. *)
Theorem menu_arrow_down_cycles (m : menu) :
  in_range m →
  on_menu_keys (replicate (length (items m)) "ArrowDown") m = m.
Proof.
  intros (i & Hidx & Hi).
  rewrite (arrow_down_times _ m i Hidx Hi).
  replace (Z.of_nat i + Z.of_nat (length (items m)))%Z
    with (Z.of_nat i + 1 * Z.of_nat (length (items m)))%Z by lia.
  rewrite Z_mod_plus_full, Z.mod_small by lia.
  destruct m; cbn in *; by subst.
Qed.

Lemma menu_arrow_down_cycles_witness :
  on_menu_keys ["ArrowDown"; "ArrowDown"; "ArrowDown"]
    (on_menu_keys ["End"] (opened [10; 11; 12]))
  = on_menu_keys ["End"] (opened [10; 11; 12]).
Proof.
  refine (menu_arrow_down_cycles (on_menu_keys ["End"] (opened [10; 11; 12]))
            _).
  exists 2. split; [reflexivity|vm_compute; lia].
Defined.

(** X14.  In a menu without items every navigation key throws, whatever
    the index: there is no item to focus; and after an arrow key the
    index is [NaN]. *)
Theorem empty_menu_throws (m : menu) (key : string) :
  items m = [] →
  key ∈ menu_keys →
  (on_menu_key key m).2
    = Threw "Cannot read properties of undefined (reading 'focus')" ∧
  (key = "ArrowDown" ∨ key = "ArrowUp" →
   currentIndex (on_menu_key key m).1 = NaN).
Proof.
  intros Hnone Hkey. unfold on_menu_key, focus_item. rewrite Hnone. cbn.
  assert (Hat : ∀ x, item_at [] x = None).
  { intros [|z]; [done|]. cbn. by destruct (0 <=? z)%Z. }
  unfold menu_keys in Hkey.
  repeat (apply elem_of_cons in Hkey as [Hkey|Hkey]);
    [ .. | by apply elem_of_nil in Hkey ]; subst key;
    repeat (case_decide; try congruence); cbn [fst snd];
    rewrite ?Hat; (split; [done|]).
  - intros _. by destruct (currentIndex m).
  - intros _. by destruct (currentIndex m).
  - by intros [?|?].
  - by intros [?|?].
Qed.

Lemma empty_menu_throws_witness :
  (on_menu_key "Home" (opened [])).2
  = Threw "Cannot read properties of undefined (reading 'focus')".
Proof.
  refine (proj1 (empty_menu_throws (opened []) "Home" eq_refl _)).
  unfold menu_keys. do 2 right. by left.
Defined.

(** * Live regions *)

Lemma region_write (u v : bool) (text : string) (s : live) :
  region u (write v text s) = if bool_decide (v = u) then Some text
                              else region u s.
Proof. by destruct u, v. Qed.

Lemma last_cons_default (m text : string) (l : list string) :
  default text (last (m :: l)) = default m (last l).
Proof. rewrite last_cons. by destruct (last l). Qed.

Lemma regions_exist_announce message priority s :
  regions_exist s → regions_exist (announce message priority s).
Proof.
  intros Hs. unfold announce.
  destruct (region (is_urgent priority) s) as [text|] eqn:Hr; [|done].
  intros t Ht. cbn in Ht.
  assert (Hkeep : ∀ u, is_Some (region u s) →
            is_Some (region u (write (is_urgent priority) "" s))).
  { intros u Hu. rewrite region_write. by case_bool_decide. }
  replace (region t.1 _) with
    (region t.1 (write (is_urgent priority) "" s))
    by (by destruct t.1, (is_urgent priority)).
  assert (Ht' : t ∈ timers s ++ [(is_urgent priority, message)])
    by (by destruct (is_urgent priority)).
  apply elem_of_app in Ht' as [Ht'| ->%list_elem_of_singleton].
  - by apply Hkeep, Hs.
  - cbn. rewrite region_write. by rewrite bool_decide_eq_true_2.
Qed.

Lemma regions_exist_timeout s :
  regions_exist s → regions_exist (timeout s).
Proof.
  intros Hs. unfold timeout.
  destruct (timers s) as [|[u m] rest] eqn:Ht; [done|].
  intros t Hin. cbn in Hin.
  replace (region t.1 _) with (region t.1 (write u m s))
    by (by destruct t.1, u).
  rewrite region_write. case_bool_decide; [done|].
  apply Hs. rewrite Ht. by right.
Qed.

Lemma eventual_timeout (u : bool) (s : live) :
  regions_exist s → eventual u (timeout s) = eventual u s.
Proof.
  intros Hs. unfold timeout, eventual, scheduled.
  destruct (timers s) as [|[v m] rest] eqn:Ht; [by rewrite Ht|].
  replace (region u _) with (region u (write v m s)) by (by destruct u, v).
  rewrite region_write. cbn [omap list_omap fst snd].
  replace (timers _) with rest by (by destruct v).
  case_bool_decide as Hv; cbn.
  - subst v. destruct (Hs (u, m)) as [text Htext]; [rewrite Ht; by left|].
    cbn in Htext. rewrite Htext. by rewrite last_cons_default.
  - done.
Qed.

Lemma eventual_announce (u : bool) (message priority : string) (s : live) :
  eventual u (announce message priority s)
  = if bool_decide (is_urgent priority = u)
    then (λ _, message) <$> eventual u s
    else eventual u s.
Proof.
  unfold announce.
  destruct (region (is_urgent priority) s) as [text|] eqn:Hr.
  - unfold eventual, scheduled. cbn [timers].
    replace (region u _) with (region u (write (is_urgent priority) "" s))
      by (by destruct u, (is_urgent priority)).
    replace (timers (write (is_urgent priority) "" s)) with (timers s)
      by (by destruct (is_urgent priority)).
    rewrite region_write, omap_app. cbn [omap list_omap fst snd].
    case_bool_decide as Hu; cbn.
    + subst u. rewrite Hr. cbn. by rewrite last_snoc.
    + by rewrite app_nil_r.
  - case_bool_decide as Hu; [|done].
    subst u. unfold eventual. by rewrite Hr.
Qed.

Lemma run_events_keeps_regions (es : list event) :
  ∀ s, regions_exist s → regions_exist (run_events es s).
Proof.
  induction es as [|e es IH]; intros s Hs; [done|].
  cbn [run_events foldl]. apply IH.
  destruct e; [by apply regions_exist_announce|by apply regions_exist_timeout].
Qed.

Lemma eventual_run_events (u : bool) (es : list event) :
  ∀ s, regions_exist s →
       eventual u (run_events es s)
       = (λ text, default text (last (announced u es))) <$> eventual u s.
Proof.
  induction es as [|e es IH]; intros s Hs.
  - cbn. by destruct (eventual u s).
  - cbn [run_events foldl]. fold (run_events es (step s e)).
    destruct e as [message priority|]; cbn [step].
    + rewrite (IH _ (regions_exist_announce message priority s Hs)).
      rewrite eventual_announce. unfold announced. cbn [omap list_omap].
      case_bool_decide as Hu; [|done].
      destruct (eventual u s); cbn; [|done].
      by rewrite last_cons_default.
    + rewrite (IH _ (regions_exist_timeout s Hs)).
      by rewrite eventual_timeout.
Qed.

Lemma iter_timeout (n : nat) :
  ∀ s, Nat.iter (S n) timeout s = Nat.iter n timeout (timeout s).
Proof.
  induction n as [|n IH]; intros s; [done|].
  change (timeout (Nat.iter (S n) timeout s)
          = timeout (Nat.iter n timeout (timeout s))).
  by rewrite IH.
Qed.

Lemma drain_reaches_eventual (u : bool) :
  ∀ s, regions_exist s →
       region u (drain s) = eventual u s ∧ timers (drain s) = [].
Proof.
  intros s. unfold drain.
  remember (length (timers s)) as n eqn:Hn. revert s Hn.
  induction n as [|n IH]; intros s Hn Hs.
  - destruct (timers s) eqn:Ht; [|discriminate]. cbn.
    unfold eventual, scheduled. rewrite Ht. cbn.
    by destruct (region u s).
  - rewrite iter_timeout.
    assert (Hlen : n = length (timers (timeout s))).
    { unfold timeout. destruct (timers s) as [|[v m] rest]; [discriminate|].
      cbn in *. lia. }
    destruct (IH (timeout s) Hlen (regions_exist_timeout s Hs)) as [Hr Ht].
    by rewrite Hr, eventual_timeout.
Qed.

(** X15.  Starting with no callback scheduled, after any interleaving of
    announcements and timer callbacks, once the remaining callbacks have
    run a region reads the last message announced to it, or what it read
    before when nothing was announced to it; a region that does not exist
    is never created.  ("assertive" addresses the assertive region, every
    other priority the polite one.) *)
Theorem live_region_reads_last_message
    (urgent : bool) (es : list event) (s : live) :
  timers s = [] →
  let s' := drain (run_events es s) in
  timers s' = [] ∧
  region urgent s'
  = match region urgent s with
    | None => None
    | Some text => Some (default text (last (announced urgent es)))
    end.
Proof.
  intros Hnone s'.
  assert (Hs : regions_exist s) by (intros t Ht; rewrite Hnone in Ht;
                                    by apply elem_of_nil in Ht).
  destruct (drain_reaches_eventual urgent (run_events es s)
              (run_events_keeps_regions es s Hs)) as [Hr Ht].
  split; [exact Ht|]. subst s'. rewrite Hr, (eventual_run_events urgent es s Hs).
  unfold eventual, scheduled. rewrite Hnone. cbn.
  by destruct (region urgent s).
Qed.

Lemma live_region_reads_last_message_witness :
  let s := {| polite := Some ""; assertive := Some ""; timers := [] |} in
  let es := [ Announce "Saved" "polite"; Announce "Saved" "polite"; Timeout;
              Announce "Error in email: required" "assertive";
              Announce "Loading..." "info" ] in
  polite (drain (run_events es s)) = Some "Loading..." ∧
  assertive (drain (run_events es s)) = Some "Error in email: required".
Proof.
  intros s es. split.
  - exact (proj2 (live_region_reads_last_message false es s eq_refl)).
  - exact (proj2 (live_region_reads_last_message true es s eq_refl)).
Defined.

(** * Input helpers *)

Lemma trim_start_head (s : jstring) (c : N) :
  head (trim_start s) = Some c → is_space c = false.
Proof.
  induction s as [|x s IH]; cbn; [done|].
  destruct (is_space x) eqn:Hx; [exact IH|].
  cbn. by intros [= <-].
Qed.

Lemma trim_start_fixed (s : jstring) :
  (∀ c, head s = Some c → is_space c = false) → trim_start s = s.
Proof.
  destruct s as [|x s]; [done|]. intros H. cbn. by rewrite (H x).
Qed.

Lemma trim_start_snoc (s : jstring) (c : N) :
  is_space c = false → trim_start (s ++ [c]) = trim_start s ++ [c].
Proof.
  intros Hc. induction s as [|x s IH]; cbn; [by rewrite Hc|].
  by destruct (is_space x).
Qed.

Lemma trim_start_suffix (s : jstring) : trim_start s `suffix_of` s.
Proof.
  induction s as [|x s IH]; cbn; [done|].
  destruct (is_space x); [by apply suffix_cons_r|done].
Qed.

Lemma trim_end_cons (c : N) (s : jstring) :
  is_space c = false → trim_end (c :: s) = c :: trim_end s.
Proof.
  intros Hc. unfold trim_end.
  by rewrite reverse_cons, (trim_start_snoc _ _ Hc), reverse_snoc.
Qed.

Lemma trim_end_last (s : jstring) (c : N) :
  last (trim_end s) = Some c → is_space c = false.
Proof. unfold trim_end. rewrite last_reverse. apply trim_start_head. Qed.

Lemma trim_end_fixed (s : jstring) :
  (∀ c, last s = Some c → is_space c = false) → trim_end s = s.
Proof.
  intros H. unfold trim_end. rewrite trim_start_fixed.
  - apply reverse_involutive.
  - intros c. rewrite head_reverse. apply H.
Qed.

Lemma trim_end_prefix (s : jstring) : trim_end s `prefix_of` s.
Proof.
  unfold trim_end.
  destruct (trim_start_suffix (reverse s)) as [k Hk]. exists (reverse k).
  rewrite <- reverse_app, <- Hk. by rewrite reverse_involutive.
Qed.

Lemma trim_trimmed (s : jstring) : trimmed (trim s).
Proof.
  split; [|apply trim_end_last].
  unfold trim. intros c.
  destruct (trim_start s) as [|x t] eqn:Ht; [done|].
  assert (Hx : is_space x = false)
    by (apply (trim_start_head s); by rewrite Ht).
  rewrite (trim_end_cons x t Hx). cbn. by intros [= <-].
Qed.

Lemma trim_fixed (s : jstring) : trimmed s → trim s = s.
Proof.
  intros [Hhead Hlast]. unfold trim.
  by rewrite (trim_start_fixed s Hhead), (trim_end_fixed s Hlast).
Qed.

Lemma startsWith_app (prefix s : jstring) :
  startsWith prefix s = true ↔ ∃ rest, s = prefix ++ rest.
Proof.
  unfold startsWith. rewrite bool_decide_eq_true. split.
  - intros H. exists (drop (length prefix) s).
    by rewrite <- H at 1; rewrite take_drop.
  - intros [rest ->]. by rewrite take_app_length.
Qed.

(** X16.  [sanitizeUrl] answers with a URL exactly for a string that,
    trimmed, starts with "http://" or "https://" in lower case; the answer
    is that trimmed string, it never starts with "javascript:", and
    sanitising it again gives it back. *)
Theorem sanitizeUrl_accepts_http_only (url : argument) (v : jstring) :
  sanitizeUrl url = Some v ↔
  ∃ s, url = AString s ∧ v = trim s ∧
       ((∃ rest, v = lit "http://" ++ rest) ∨
        (∃ rest, v = lit "https://" ++ rest)) ∧
       startsWith (lit "javascript:") v = false ∧
       trimmed v ∧
       sanitizeUrl (AString v) = Some v.
Proof.
  split.
  - destruct url as [|s]; [done|]. unfold sanitizeUrl.
    destruct (startsWith (lit "http://") (trim s)
              || startsWith (lit "https://") (trim s)) eqn:Hs; [|done].
    intros [= <-]. exists s. split; [done|]. split; [done|].
    assert (Hscheme : (∃ rest, trim s = lit "http://" ++ rest) ∨
                      (∃ rest, trim s = lit "https://" ++ rest)).
    { apply orb_true_iff in Hs as [H|H]; [left|right];
        by apply startsWith_app. }
    split; [exact Hscheme|]. split; [|split; [apply trim_trimmed|]].
    + destruct Hscheme as [[rest ->]|[rest ->]]; by vm_compute.
    + by rewrite (trim_fixed _ (trim_trimmed s)), Hs.
  - intros (s & -> & -> & Hscheme & _). unfold sanitizeUrl.
    destruct Hscheme as [H|H]; apply startsWith_app in H; rewrite H;
      [done|by rewrite orb_true_r].
Qed.

Lemma sanitizeUrl_accepts_http_only_witness :
  sanitizeUrl (AString (lit "  https://example.org/a b  "))
  = Some (lit "https://example.org/a b").
Proof.
  apply (proj2 (sanitizeUrl_accepts_http_only _ _)).
  exists (lit "  https://example.org/a b  ").
  split; [reflexivity|]. split; [reflexivity|]. split.
  - right. by exists (lit "example.org/a b").
  - split; [reflexivity|]. split; [|reflexivity].
    split; intros c [= <-]; reflexivity.
Defined.

Lemma sanitizeInput_trim_end (r : jstring) (maxLength : Z) :
  (∀ c, head r = Some c → is_space c = false) →
  (Z.of_nat (length r) ≤ Z.max 0 maxLength)%Z →
  sanitizeInput (AString r) maxLength = trim_end r.
Proof.
  intros Hhead Hlen. unfold sanitizeInput, trim.
  rewrite (trim_start_fixed r Hhead).
  assert (Hshort : (length (trim_end r) ≤ length r)%nat)
    by (apply prefix_length, trim_end_prefix).
  destruct (Z.ltb_spec maxLength (Z.of_nat (length (trim_end r))))
    as [Hcut|_]; [|done].
  unfold substring_to. apply take_ge. lia.
Qed.

(** X17.  [sanitizeInput] answers the empty string for anything that is
    not a string; for a string, a prefix of the trimmed string that is no
    longer than [maxLength] (empty when [maxLength] is negative), equal to
    the trimmed string when that fits, and never starting with white
    space. *)
Theorem sanitizeInput_bounded (str : argument) (maxLength : Z) :
  let r := sanitizeInput str maxLength in
  (Z.of_nat (length r) ≤ Z.max 0 maxLength)%Z ∧
  (∀ c, head r = Some c → is_space c = false) ∧
  (str = NotAString → r = []) ∧
  (∀ s, str = AString s →
        r `prefix_of` trim s ∧
        ((Z.of_nat (length (trim s)) ≤ maxLength)%Z → r = trim s)).
Proof.
  cbv zeta. destruct str as [|s]; cbn [sanitizeInput].
  - repeat split; try done; cbn; lia.
  - destruct (Z.ltb_spec maxLength (Z.of_nat (length (trim s)))) as [Hcut|Hfit].
    + unfold substring_to.
      split; [rewrite length_take; lia|]. split; [|split; [done|]].
      * intros c Hc. apply (proj1 (trim_trimmed s)).
        destruct (trim s) as [|x t]; [by rewrite take_nil in Hc|].
        destruct (Z.to_nat maxLength); [done|]. exact Hc.
      * intros s' [= <-]. split; [apply prefix_take|]. lia.
    + split; [lia|]. split; [apply trim_trimmed|]. split; [done|].
      intros s' [= <-]. by split.
Qed.

Lemma sanitizeInput_bounded_witness :
  sanitizeInput (AString (lit "  ab   cd  ")) 3 `prefix_of` lit "ab   cd" ∧
  sanitizeInput (AString (lit "  ab   cd  ")) 10 = lit "ab   cd".
Proof.
  destruct (proj2 (proj2 (proj2
              (sanitizeInput_bounded (AString (lit "  ab   cd  ")) 3)))
              (lit "  ab   cd  ") eq_refl) as [Hprefix _].
  destruct (proj2 (proj2 (proj2
              (sanitizeInput_bounded (AString (lit "  ab   cd  ")) 10)))
              (lit "  ab   cd  ") eq_refl) as [_ Hfit].
  split; [exact Hprefix|]. apply Hfit. vm_compute. discriminate.
Defined.

(** X18.  Sanitising its own answer once more changes it exactly when the
    answer ends in white space, which a cut inside the string can leave:
    [sanitizeInput] is idempotent on the inputs whose answer does not end
    in white space, and on no other. *)
Theorem sanitizeInput_again (str : argument) (maxLength : Z) :
  let r := sanitizeInput str maxLength in
  sanitizeInput (AString r) maxLength = trim_end r ∧
  (sanitizeInput (AString r) maxLength = r
   ↔ ∀ c, last r = Some c → is_space c = false).
Proof.
  cbv zeta.
  destruct (sanitizeInput_bounded str maxLength) as (Hlen & Hhead & _).
  rewrite (sanitizeInput_trim_end _ maxLength Hhead Hlen).
  split; [done|]. split.
  - intros Hfix c. rewrite <- Hfix. apply trim_end_last.
  - apply trim_end_fixed.
Qed.

Lemma sanitizeInput_again_witness :
  sanitizeInput (AString (sanitizeInput (AString (lit "ab   cd")) 3)) 3
  ≠ sanitizeInput (AString (lit "ab   cd")) 3.
Proof.
  intros Hfix.
  pose proof (proj1 (proj2 (sanitizeInput_again (AString (lit "ab   cd")) 3))
                Hfix 32%N eq_refl) as Hspace.
  discriminate Hspace.
Defined.

(** ** Password check *)

Lemma password_errors_nil (u l g : bool) :
  (if u then [] else ["Must contain uppercase letters"]) ++
  (if l then [] else ["Must contain lowercase letters"]) ++
  (if g then [] else ["Must contain numbers"]) = []
  ↔ u && l && g = true.
Proof. by destruct u, l, g. Qed.

(** X19.  The password check is consistent: a password is valid exactly
    when no error is listed, and exactly when it has at least 8 code
    units with an upper-case letter, a lower-case letter and a digit among
    them; its strength is "weak" exactly when it is not valid, and
    "strong" only with at least 12 code units and a special character.  A
    missing or too short password gets the one error about its length,
    whatever else it lacks. *)
Theorem validatePassword_consistent (password : option jstring) :
  let r := validatePassword password in
  (valid r = true ↔ errors r = []) ∧
  (valid r = true ↔
   ∃ p, password = Some p ∧ (8 ≤ length p)%nat ∧
        existsb is_upper p = true ∧ existsb is_lower p = true ∧
        existsb is_digit p = true) ∧
  (strength r = "weak" ↔ valid r = false) ∧
  (strength r = "strong" →
   ∃ p, password = Some p ∧ (12 ≤ length p)%nat ∧
        existsb is_special p = true) ∧
  ((∀ p, password = Some p → (length p < 8)%nat) →
   errors r = ["Password must be at least 8 characters"]).
Proof.
  cbv zeta. destruct password as [p|]; cbn [validatePassword].
  2:{ split; [by split|]. split; [split; [done|by intros (p & [=] & _)]|].
      split; [by split|]. split; [done|by intros _]. }
  destruct (Nat.ltb_spec (length p) 8) as [Hshort|Hlong]; cbn -[Nat.leb].
  { split; [by split|].
    split; [split; [done|intros (q & [= <-] & Hq & _); lia]|].
    split; [by split|]. split; [done|by intros _]. }
  assert (Hhere : ∀ P : jstring → Prop, P p → ∃ q, Some p = Some q ∧ P q)
    by (intros P HP; by exists p).
  destruct (existsb is_upper p) eqn:Hu, (existsb is_lower p) eqn:Hl,
    (existsb is_digit p) eqn:Hd; cbn -[Nat.leb];
    (split; [by split|]);
    (split; [split; [try done; intros _; by apply Hhere
                    |try done;
                     intros (q & [= <-] & _ & ? & ? & ?); congruence]|]);
    (split; [|split; [|intros H; specialize (H p eq_refl); lia]]);
    try (by split); try done.
  - destruct (existsb is_special p), (12 <=? length p)%nat,
      (10 <=? length p)%nat; by split.
  - intros Hstrong. apply Hhere.
    destruct (existsb is_special p); cbn -[Nat.leb] in *.
    + destruct (Nat.leb_spec 12 (length p)); [done|].
      by destruct (10 <=? length p)%nat.
    + by destruct (10 <=? length p)%nat.
Qed.

Lemma validatePassword_consistent_witness :
  strength (validatePassword (Some (lit "Abcdefgh1234!"))) = "strong" ∧
  errors (validatePassword (Some (lit "abc")))
  = ["Password must be at least 8 characters"].
Proof.
  split; [reflexivity|].
  apply (proj2 (proj2 (proj2 (proj2
           (validatePassword_consistent (Some (lit "abc"))))))).
  intros p [= <-]. cbn. lia.
Defined.

(** * Posting a job *)

Lemma split_comma_not_nil (s : jstring) : split_comma s ≠ [].
Proof.
  induction s as [|c s IH]; cbn; [done|].
  destruct (c =? comma)%N; [done|]. by destruct (split_comma s).
Qed.

Lemma join_split_comma (s : jstring) : join_comma (split_comma s) = s.
Proof.
  induction s as [|c s IH]; [done|]. cbn [split_comma].
  destruct (N.eqb_spec c comma) as [->|Hc].
  - pose proof (split_comma_not_nil s) as Hne.
    destruct (split_comma s) as [|part parts]; [done|].
    cbn [join_comma] in *. by rewrite IH.
  - pose proof (split_comma_not_nil s) as Hne.
    destruct (split_comma s) as [|part parts]; [done|].
    destruct parts as [|part' parts]; cbn [join_comma] in *;
      by rewrite <- IH.
Qed.

Lemma split_comma_parts (s : jstring) :
  Forall (λ part, comma ∉ part) (split_comma s).
Proof.
  induction s as [|c s IH]; cbn [split_comma].
  - repeat constructor. by intros ?%elem_of_nil.
  - destruct (N.eqb_spec c comma) as [->|Hc].
    + constructor; [by intros ?%elem_of_nil|done].
    + pose proof (split_comma_not_nil s) as Hne.
      destruct (split_comma s) as [|part parts]; [done|].
      apply Forall_cons in IH as [Hpart Hparts].
      constructor; [|done]. rewrite not_elem_of_cons. split; [congruence|done].
Qed.

Lemma elem_of_trim (c : N) (s : jstring) : c ∈ trim s → c ∈ s.
Proof.
  unfold trim. intros Hc.
  destruct (trim_end_prefix (trim_start s)) as [k Hk].
  destruct (trim_start_suffix s) as [k' Hk'].
  rewrite Hk', Hk, !elem_of_app. auto.
Qed.

Lemma split_comma_part (part : jstring) :
  comma ∉ part → split_comma part = [part].
Proof.
  induction part as [|c part IH]; [done|].
  intros [Hc Hpart]%not_elem_of_cons. cbn [split_comma].
  destruct (N.eqb_spec c comma) as [->|_]; [done|]. by rewrite IH.
Qed.

Lemma split_comma_app (part rest : jstring) :
  comma ∉ part →
  split_comma (part ++ comma :: rest) = part :: split_comma rest.
Proof.
  induction part as [|c part IH]; [done|].
  intros [Hc Hpart]%not_elem_of_cons. cbn [List.app split_comma].
  destruct (N.eqb_spec c comma) as [->|_]; [done|]. by rewrite IH.
Qed.

(** Splitting undoes joining, for parts without comma. *)
Lemma split_join_comma (parts : list jstring) :
  parts ≠ [] → Forall (λ part, comma ∉ part) parts →
  split_comma (join_comma parts) = parts.
Proof.
  intros Hne Hparts.
  induction Hparts as [|part parts Hpart Hparts IH]; [done|].
  destruct parts as [|part' parts].
  - by apply split_comma_part.
  - change (join_comma (part :: part' :: parts))
      with (part ++ comma :: join_comma (part' :: parts)).
    rewrite split_comma_app by done. by rewrite IH.
Qed.

(** X20.  Write the skills field as pieces separated by commas: the
    skills sent with a job are these pieces, trimmed, in order, without
    those that trimming leaves empty.  Every field is written so in
    exactly one way, and each skill sent is non-empty, has no white space
    at either end and holds no comma. *)
Theorem skills_are_clean (value : jstring) :
  (∃ parts, parts ≠ [] ∧ Forall (λ part, comma ∉ part) parts ∧
            value = join_comma parts) ∧
  (∀ parts, parts ≠ [] → Forall (λ part, comma ∉ part) parts →
            value = join_comma parts →
            split_comma value = parts ∧
            skills_of value = filter (λ skill, skill ≠ []) (map trim parts)) ∧
  Forall (λ skill, skill ≠ [] ∧ trimmed skill ∧ comma ∉ skill)
         (skills_of value).
Proof.
  split; [|split].
  - exists (split_comma value).
    split; [apply split_comma_not_nil|].
    split; [apply split_comma_parts|]. by rewrite join_split_comma.
  - intros parts Hne Hparts ->. unfold skills_of.
    by rewrite (split_join_comma parts Hne Hparts).
  - apply Forall_forall. intros skill [Hne Hin]%list_elem_of_filter.
    apply list_elem_of_fmap in Hin as (part & -> & Hpart).
    split; [done|]. split; [apply trim_trimmed|].
    intros Hc%elem_of_trim.
    pose proof (split_comma_parts value) as Hparts.
    rewrite Forall_forall in Hparts. by apply (Hparts part).
Qed.

Lemma skills_are_clean_witness :
  skills_of (lit "rocq, ,ocaml ,,") = [lit "rocq"; lit "ocaml"].
Proof.
  etrans.
  - apply (proj1 (proj2 (skills_are_clean (lit "rocq, ,ocaml ,,")))
             [lit "rocq"; lit " "; lit "ocaml "; []; []]).
    + discriminate.
    + apply (bool_decide_unpack _). by vm_compute.
    + reflexivity.
  - by vm_compute.
Defined.

Section Submitting.

Variable stringify : JS.value → string.
Variables (f : form) (modal_found : bool).

Let failure (m : string) : list job_effect :=
  [Alert ("Failed to post job: " +:+ m); Alert ("Failed to post job: " +:+ m)].

Lemma submitJob_invalid o :
  trim (jobTitle f) = [] ∨ trim (jobDescription f) = [] →
  submitJob stringify f modal_found o
  = [Alert "Title and Description are required!"].
Proof. intros H. unfold submitJob. by rewrite decide_True. Qed.

Hypothesis has_title : trim (jobTitle f) ≠ [].
Hypothesis has_description : trim (jobDescription f) ≠ [].

Lemma submitJob_valid o :
  submitJob stringify f modal_found o
  = PostJob (jobData_of f) ::
    match o with
    | Rejected m => failure m
    | Fulfilled ok b =>
        (answered stringify modal_found ok b).1 ++
        match (answered stringify modal_found ok b).2 with
        | None => []
        | Some m => failure m
        end
    end.
Proof.
  unfold submitJob. rewrite decide_False by tauto. by destruct o.
Qed.

Lemma answered_shape ok b :
  let r := answered stringify modal_found ok b in
  Forall (λ e, is_post e = false) r.1 ∧
  (r.1 ≠ [] ∨ r.2 ≠ None) ∧
  (LoadCompanyJobs ∈ r.1
   ↔ ok = true ∧ modal_found = true ∧ ∃ data, b = Json data) ∧
  (RemoveModal ∈ r.1 ↔ LoadCompanyJobs ∈ r.1).
Proof.
  assert (Hthree : ∀ e : job_effect,
            LoadCompanyJobs ∈ [e; RemoveModal; LoadCompanyJobs])
    by (intros e; do 2 right; by left).
  assert (Hno : ∀ (e : job_effect) m, e ≠ Alert m → e ∉ [Alert m]).
  { intros e m He Hin. by apply list_elem_of_singleton in Hin. }
  unfold answered. destruct b as [data|m]; cbn.
  2:{ split; [done|]. split; [by right|].
      split; split; try (by intros ?%elem_of_nil).
      by intros (_ & _ & ? & [=]). }
  destruct ok, modal_found; cbn.
  - split; [by repeat constructor|]. split; [by left|].
    split; split; intros _; [by eauto|done|done|].
    right. by left.
  - split; [by repeat constructor|]. split; [by left|].
    split; split; try (by intros [_ [[=] _]]); intros H;
      by apply Hno in H.
  - destruct (member "error" data), (member "message" data); cbn;
      (split; [by repeat constructor|]);
      (split; [first [by left|by right]|]);
      split; split;
      try (by intros [[=] _]); try (by intros ?%elem_of_nil);
      intros H; by apply Hno in H.
  - destruct (member "error" data), (member "message" data); cbn;
      (split; [by repeat constructor|]);
      (split; [first [by left|by right]|]);
      split; split;
      try (by intros [[=] _]); try (by intros ?%elem_of_nil);
      intros H; by apply Hno in H.
Qed.

Lemma answered_alerts ok b :
  let r := answered stringify modal_found ok b in
  Exists (λ e, is_alert e = true) r.1 ∨ ∃ m, r.2 = Some m.
Proof.
  unfold answered. destruct b as [data|m]; cbn; [|by eauto].
  destruct ok.
  - left. destruct modal_found; by left.
  - destruct (member "error" data), (member "message" data); cbn;
      first [by left; left | by eauto].
Qed.

End Submitting.

(** X21.  A form whose title or description is blank after trimming is
    refused with one alert and nothing is sent.  Any other form is posted
    exactly once, before anything else happens: with the trimmed title,
    a description that starts with the trimmed description, the trimmed
    department as company name, "Smart Hiring" when that is blank, and
    the skills of the skills field; none of the three is empty.  What
    follows the request holds at least one alert, and it is the success
    alert, the removal of the dialog and the reload of the jobs when the
    answer has a success status and a body that parses, the dialog being
    found. *)
Theorem submitJob_posts_valid_forms_once
    (stringify : JS.value → string) (f : form) (modal_found : bool)
    (o : settled) :
  let es := submitJob stringify f modal_found o in
  (trim (jobTitle f) = [] ∨ trim (jobDescription f) = [] →
   es = [Alert "Title and Description are required!"]) ∧
  (trim (jobTitle f) ≠ [] → trim (jobDescription f) ≠ [] →
   ∃ data rest,
     es = PostJob data :: rest ∧
     Forall (λ e, is_post e = false) rest ∧
     Exists (λ e, is_alert e = true) rest ∧
     (∀ parsed, o = Fulfilled true (Json parsed) → modal_found = true →
        rest = [Alert "✓ Job posted successfully!"; RemoveModal;
                LoadCompanyJobs]) ∧
     title data = trim (jobTitle f) ∧
     title data ≠ [] ∧
     trim (jobDescription f) `prefix_of` description data ∧
     description data ≠ [] ∧
     company_name data
     = (if decide (trim (jobDepartment f) = []) then lit "Smart Hiring"
        else trim (jobDepartment f)) ∧
     company_name data ≠ [] ∧
     required_skills data = skills_of (jobSkills f)).
Proof.
  cbv zeta. split; [apply submitJob_invalid|].
  intros Ht Hd. rewrite (submitJob_valid stringify f modal_found Ht Hd o).
  exists (jobData_of f). eexists. split; [reflexivity|].
  split; [|split; [|split; [|split; [done|split; [exact Ht|]]]]].
  - destruct o as [ok b|m]; [|by repeat constructor].
    destruct (answered_shape stringify modal_found ok b) as (Hposts & _).
    apply Forall_app. split; [exact Hposts|].
    destruct (answered stringify modal_found ok b).2; by repeat constructor.
  - destruct o as [ok b|m]; [|by left].
    apply Exists_app.
    destruct (answered_alerts stringify modal_found ok b) as [Hone|[m Hm]].
    + by left.
    + right. rewrite Hm. by left.
  - intros parsed -> ->. reflexivity.
  - split; [by eexists|].
    split; [cbn; by destruct (trim (jobDescription f))|].
    split; [done|]. split; [|done].
    cbn. by case_decide.
Qed.

Lemma submitJob_posts_valid_forms_once_witness :
  submitJob (λ _, "{}") blank_form true (Rejected "Failed to fetch")
    = [Alert "Title and Description are required!"] ∧
  ∃ data,
    submitJob (λ _, "{}") engineer_form true (Fulfilled true (Json JS.Null))
    = [ PostJob data; Alert "✓ Job posted successfully!"; RemoveModal;
        LoadCompanyJobs ] ∧
    title data = lit "Engineer" ∧
    company_name data = lit "Smart Hiring".
Proof.
  split.
  - apply (proj1 (submitJob_posts_valid_forms_once (λ _, "{}") blank_form
                    true (Rejected "Failed to fetch"))).
    by left.
  - destruct (proj2 (submitJob_posts_valid_forms_once (λ _, "{}")
                       engineer_form true (Fulfilled true (Json JS.Null)))
                ltac:(by vm_compute) ltac:(by vm_compute))
      as (data & rest & Hes & _ & _ & Hrest & Htitle & _ & _ & _ & Hname & _).
    exists data. rewrite Hes, (Hrest JS.Null eq_refl eq_refl).
    split; [reflexivity|]. split; [by rewrite Htitle|by rewrite Hname].
Defined.

(** X22.  The job list is reloaded, and the dialog removed, exactly when
    the form was valid, the answer had a success status and a body that
    parses, and the dialog was found; in particular not for a success
    status with a body that does not parse. *)
Theorem submitJob_reloads_iff_posted
    (stringify : JS.value → string) (f : form) (modal_found : bool)
    (o : settled) :
  let es := submitJob stringify f modal_found o in
  (LoadCompanyJobs ∈ es
   ↔ trim (jobTitle f) ≠ [] ∧ trim (jobDescription f) ≠ [] ∧
     modal_found = true ∧ ∃ data, o = Fulfilled true (Json data)) ∧
  (RemoveModal ∈ es ↔ LoadCompanyJobs ∈ es).
Proof.
  cbv zeta.
  assert (Htwo : ∀ (e : job_effect) m, e ≠ Alert m → e ∉ [Alert m; Alert m]).
  { intros e m He Hin.
    repeat (apply elem_of_cons in Hin as [Hin|Hin]; [done|]).
    by apply elem_of_nil in Hin. }
  destruct (decide (trim (jobTitle f) = [] ∨ trim (jobDescription f) = []))
    as [Hblank|Hfilled].
  - rewrite (submitJob_invalid stringify f modal_found o Hblank).
    split; split; try (by intros ?%list_elem_of_singleton).
    intros (? & ? & _). tauto.
  - assert (Ht : trim (jobTitle f) ≠ []) by tauto.
    assert (Hd : trim (jobDescription f) ≠ []) by tauto.
    rewrite (submitJob_valid stringify f modal_found Ht Hd o).
    destruct o as [ok b|m].
    + destruct (answered_shape stringify modal_found ok b)
        as (_ & _ & Hload & Hremove).
      assert (Htail : ∀ e : job_effect, (∀ m, e ≠ Alert m) →
                e ∈ match (answered stringify modal_found ok b).2 with
                    | Some m => [Alert ("Failed to post job: " +:+ m);
                                 Alert ("Failed to post job: " +:+ m)]
                    | None => []
                    end → False).
      { intros e He. destruct (answered stringify modal_found ok b).2.
        - by apply Htwo.
        - by intros ?%elem_of_nil. }
      rewrite !elem_of_cons, !elem_of_app. split; split.
      * intros [[=]|[H|H]]; [|by apply Htail in H].
        apply Hload in H as (-> & -> & data & ->). by eauto 10.
      * intros (_ & _ & -> & data & [= -> ->]). right. left.
        apply Hload. by eauto.
      * intros [[=]|[H|H]]; [|by apply Htail in H].
        right. left. by apply Hremove.
      * intros [[=]|[H|H]]; [|by apply Htail in H].
        right. left. by apply Hremove.
    + split; split.
      * intros [[=]|H]%elem_of_cons. by apply Htwo in H.
      * by intros (_ & _ & _ & ? & [=]).
      * intros [[=]|H]%elem_of_cons. by apply Htwo in H.
      * intros [[=]|H]%elem_of_cons. by apply Htwo in H.
Qed.

Lemma submitJob_reloads_iff_posted_witness :
  LoadCompanyJobs
  ∈ submitJob (λ _, "{}") engineer_form true (Fulfilled true (Json JS.Null)).
Proof.
  apply (proj1 (submitJob_reloads_iff_posted (λ _, "{}") engineer_form true
                  (Fulfilled true (Json JS.Null)))).
  split; [by vm_compute|]. split; [by vm_compute|]. split; [done|by eexists].
Defined.

(** X23.  When the exchange fails, or the body of the answer does not
    parse, whatever its status, a valid form ends in the same failure
    alert shown twice, after the one request, and nothing else happens. *)
Theorem submitJob_exception_alerts_twice
    (stringify : JS.value → string) (f : form) (modal_found : bool)
    (o : settled) (m : string) :
  trim (jobTitle f) ≠ [] →
  trim (jobDescription f) ≠ [] →
  o = Rejected m ∨ (∃ ok, o = Fulfilled ok (Unparseable m)) →
  submitJob stringify f modal_found o
  = [ PostJob (jobData_of f);
      Alert ("Failed to post job: " +:+ m);
      Alert ("Failed to post job: " +:+ m) ].
Proof.
  intros Ht Hd Ho. rewrite (submitJob_valid stringify f modal_found Ht Hd o).
  by destruct Ho as [->|[ok ->]].
Qed.

Lemma submitJob_exception_alerts_twice_witness :
  submitJob (λ _, "{}") engineer_form true
    (Fulfilled true (Unparseable "Unexpected token < in JSON at position 0"))
  = [ PostJob (jobData_of engineer_form);
      Alert "Failed to post job: Unexpected token < in JSON at position 0";
      Alert "Failed to post job: Unexpected token < in JSON at position 0" ].
Proof.
  apply (submitJob_exception_alerts_twice (λ _, "{}") engineer_form true _
           "Unexpected token < in JSON at position 0");
    [by vm_compute|by vm_compute|].
  right. by exists true.
Defined.

(** * The e-mail pattern *)

Lemma lang_nil_nullable (r : regex) (w : jstring) :
  lang r w → w = [] → nullable r = true.
Proof.
  induction 1 as [|p c Hc|r1 r2 s1 s2 _ IH1 _ IH2|r1 r2 s _ IH|r1 r2 s _ IH
                 |r|r s1 s2 _ _ _ _]; cbn; try done.
  - intros [-> ->]%app_eq_nil. by rewrite IH1, IH2.
  - intros Hs. by rewrite IH.
  - intros Hs. rewrite IH by done. apply orb_true_r.
Qed.

Lemma nullable_lang (r : regex) : nullable r = true ↔ lang r [].
Proof.
  split; [|intros H; by apply (lang_nil_nullable r [])].
  induction r as [| |p|r1 IH1 r2 IH2|r1 IH1 r2 IH2|r IH]; cbn; try done.
  - intros _. constructor.
  - intros [H1 H2]%andb_true_iff.
    change (@nil N) with (@nil N ++ @nil N). constructor; auto.
  - intros [H|H]%orb_true_iff; [apply lang_alt_l|apply lang_alt_r]; auto.
  - intros _. constructor.
Qed.

Lemma star_cons_inv (r : regex) (c : N) (s : jstring) :
  lang (Star r) (c :: s) →
  ∃ s1 s2, s = s1 ++ s2 ∧ lang r (c :: s1) ∧ lang (Star r) s2.
Proof.
  intros H. remember (Star r) as r' eqn:Hr. remember (c :: s) as w eqn:Hw.
  revert s Hw.
  induction H as [| | | | | |r0 s1 s2 H1 _ H2 IH2]; intros t Ht; try done.
  injection Hr as ->. destruct s1 as [|x s1]; cbn in Ht.
  - by apply IH2.
  - injection Ht as -> <-. by exists s1, s2.
Qed.

Lemma lang_class_inv (p : N → bool) (s : jstring) :
  lang (Class p) s ↔ ∃ c, s = [c] ∧ p c = true.
Proof.
  split.
  - inversion 1; subst. by eexists.
  - intros (c & -> & Hc). by constructor.
Qed.

Lemma lang_seq_inv (r1 r2 : regex) (s : jstring) :
  lang (Seq r1 r2) s ↔ ∃ s1 s2, s = s1 ++ s2 ∧ lang r1 s1 ∧ lang r2 s2.
Proof.
  split.
  - inversion 1; subst. by eauto.
  - intros (s1 & s2 & -> & H1 & H2). by constructor.
Qed.

Lemma lang_alt_inv (r1 r2 : regex) (s : jstring) :
  lang (Alt r1 r2) s ↔ lang r1 s ∨ lang r2 s.
Proof.
  split.
  - inversion 1; subst; auto.
  - intros [H|H]; [by apply lang_alt_l|by apply lang_alt_r].
Qed.

Lemma lang_never_inv (s : jstring) : lang Never s ↔ False.
Proof. split; [inversion 1|done]. Qed.

Lemma lang_eps_inv (s : jstring) : lang Eps s ↔ s = [].
Proof. split; [by inversion 1|intros ->; constructor]. Qed.

Lemma deriv_lang (r : regex) :
  ∀ (c : N) (s : jstring), lang (deriv c r) s ↔ lang r (c :: s).
Proof.
  induction r as [| |p|r1 IH1 r2 IH2|r1 IH1 r2 IH2|r IH]; intros c s; cbn.
  - by rewrite !lang_never_inv.
  - by rewrite lang_never_inv, lang_eps_inv.
  - rewrite lang_class_inv. destruct (p c) eqn:Hp.
    + rewrite lang_eps_inv. split; [intros ->; by exists c|].
      by intros (x & [= _ ->] & _).
    + rewrite lang_never_inv. split; [done|].
      intros (x & [= -> _] & Hx). congruence.
  - rewrite lang_alt_inv, !lang_seq_inv. split.
    + intros [(s1 & s2 & -> & H1 & H2)|Hr].
      * exists (c :: s1), s2. split; [done|]. split; [by apply IH1|done].
      * destruct (nullable r1) eqn:Hn; [|by apply lang_never_inv in Hr].
        exists [], (c :: s). split; [done|].
        split; [by apply nullable_lang|by apply IH2].
    + intros (s1 & s2 & Hs & H1 & H2). destruct s1 as [|x s1]; cbn in Hs.
      * subst s2. right.
        rewrite (proj2 (nullable_lang r1) H1). by apply IH2.
      * injection Hs as <- ->. left. exists s1, s2.
        split; [done|]. split; [by apply IH1|done].
  - by rewrite !lang_alt_inv, IH1, IH2.
  - rewrite lang_seq_inv. split.
    + intros (s1 & s2 & -> & H1 & H2).
      apply (lang_star_app r (c :: s1) s2); [by apply IH|done].
    + intros (s1 & s2 & -> & H1 & H2)%star_cons_inv.
      exists s1, s2. split; [done|]. split; [by apply IH|done].
Qed.

Lemma test_lang (r : regex) (s : jstring) : test r s = true ↔ lang r s.
Proof.
  unfold test. revert r. induction s as [|c s IH]; intros r; cbn.
  - apply nullable_lang.
  - rewrite IH. apply deriv_lang.
Qed.

Lemma lang_class_star (p : N → bool) (s : jstring) :
  lang (Star (Class p)) s ↔ Forall (λ c, p c = true) s.
Proof.
  split.
  - intros H. remember (Star (Class p)) as r eqn:Hr.
    induction H as [| | | | | |r0 s1 s2 H1 _ _ IH2]; try done.
    injection Hr as ->. apply Forall_app. split; [|by apply IH2].
    apply lang_class_inv in H1 as (c & -> & Hc). by repeat constructor.
  - induction 1 as [|c s Hc _ IH]; [constructor|].
    apply (lang_star_app _ [c] s); [by constructor|done].
Qed.

Lemma lang_class_plus (p : N → bool) (s : jstring) :
  lang (Plus (Class p)) s ↔ s ≠ [] ∧ Forall (λ c, p c = true) s.
Proof.
  unfold Plus. rewrite lang_seq_inv. split.
  - intros (s1 & s2 & -> & (c & -> & Hc)%lang_class_inv & H2%lang_class_star).
    split; [done|]. by constructor.
  - intros [Hne Hall]. destruct Hall as [|c s Hc Hs]; [done|].
    exists [c], s. split; [done|].
    split; [by constructor|by apply lang_class_star].
Qed.

Lemma lang_class_two_or_more (p : N → bool) (s : jstring) :
  lang (TwoOrMore (Class p)) s
  ↔ (2 ≤ length s)%nat ∧ Forall (λ c, p c = true) s.
Proof.
  unfold TwoOrMore. rewrite lang_seq_inv. split.
  - intros (s1 & s2 & -> & (c & -> & Hc)%lang_class_inv
            & (t1 & t2 & -> & (c' & -> & Hc')%lang_class_inv
               & H2%lang_class_star)%lang_seq_inv).
    split; [cbn; lia|]. by repeat constructor.
  - intros [Hlen Hall].
    destruct Hall as [|c s Hc Hs]; [cbn in Hlen; lia|].
    destruct Hs as [|c' s Hc' Hs]; [cbn in Hlen; lia|].
    exists [c], (c' :: s). split; [done|]. split; [by constructor|].
    apply lang_seq_inv. exists [c'], s. split; [done|].
    split; [by constructor|by apply lang_class_star].
Qed.

Lemma lang_unit (k : N) (s : jstring) :
  lang (Class (N.eqb k)) s ↔ s = [k].
Proof.
  rewrite lang_class_inv. split.
  - by intros (c & -> & ->%N.eqb_eq).
  - intros ->. exists k. by rewrite N.eqb_refl.
Qed.

(** The shape of the strings the e-mail pattern matches. *)
Lemma email_shape (email : jstring) :
  validateEmail email = true ↔
  ∃ name domain tld,
    email = name ++ at_sign :: domain ++ dot :: tld ∧
    name ≠ [] ∧ Forall (λ c, local_char c = true) name ∧
    domain ≠ [] ∧ Forall (λ c, domain_char c = true) domain ∧
    (2 ≤ length tld)%nat ∧ Forall (λ c, is_letter c = true) tld.
Proof.
  unfold validateEmail. rewrite test_lang. unfold email_pattern. split.
  - intros (name & s1 & -> & [Hn Hname]%lang_class_plus
            & (a & s2 & -> & ->%lang_unit
               & (domain & s3 & -> & [Hd Hdomain]%lang_class_plus
                  & (d & tld & -> & ->%lang_unit
                     & [Hlen Htld]%lang_class_two_or_more)%lang_seq_inv
                 )%lang_seq_inv)%lang_seq_inv)%lang_seq_inv.
    by exists name, domain, tld.
  - intros (name & domain & tld & -> & Hn & Hname & Hd & Hdomain & Hlen & Htld).
    apply lang_seq_inv. exists name, (at_sign :: domain ++ dot :: tld).
    split; [done|]. split; [by apply lang_class_plus|].
    apply lang_seq_inv. exists [at_sign], (domain ++ dot :: tld).
    split; [done|]. split; [by apply lang_unit|].
    apply lang_seq_inv. exists domain, (dot :: tld).
    split; [done|]. split; [by apply lang_class_plus|].
    apply lang_seq_inv. exists [dot], tld.
    split; [done|]. split; [by apply lang_unit|].
    by apply lang_class_two_or_more.
Qed.

Lemma printable_not_space (c : N) : (33 ≤ c ≤ 126)%N → is_space c = false.
Proof.
  intros Hc. unfold is_space. apply orb_false_iff. split.
  - apply bool_decide_eq_false. rewrite !elem_of_cons, elem_of_nil. lia.
  - apply andb_false_iff. left. apply N.leb_gt. lia.
Qed.

Lemma letter_bounds (c : N) : is_letter c = true → (65 ≤ c ≤ 122)%N.
Proof.
  unfold is_letter, is_upper, is_lower.
  rewrite orb_true_iff, !andb_true_iff, !N.leb_le. lia.
Qed.

Lemma local_char_bounds (c : N) :
  local_char c = true → (37 ≤ c ≤ 122)%N ∧ c ≠ at_sign.
Proof.
  unfold local_char, is_letter, is_upper, is_lower, is_digit, at_sign.
  rewrite !orb_true_iff, !andb_true_iff, !N.leb_le, bool_decide_eq_true.
  unfold lit. cbn. rewrite !elem_of_cons, elem_of_nil. lia.
Qed.

Lemma domain_char_bounds (c : N) :
  domain_char c = true → (45 ≤ c ≤ 122)%N ∧ c ≠ at_sign.
Proof.
  unfold domain_char, is_letter, is_upper, is_lower, is_digit, at_sign.
  rewrite !orb_true_iff, !andb_true_iff, !N.leb_le, bool_decide_eq_true.
  unfold lit. cbn. rewrite !elem_of_cons, elem_of_nil. lia.
Qed.

Lemma filter_none (k : N) (l : list N) :
  Forall (λ c, c ≠ k) l → filter (λ c, c = k) l = [].
Proof.
  induction 1 as [|c l Hc _ IH]; [done|].
  by rewrite filter_cons, decide_False.
Qed.

(** X24.  [validateEmail] accepts exactly the strings made of a non-empty
    name over letters, digits and [._%+-], one "@", a non-empty domain over
    letters, digits, dots and hyphens, a dot, and at least two letters.
    An accepted address therefore holds exactly one "@", only printable
    ASCII and no white space, and has at least six code units. *)
Theorem validateEmail_accepts (email : jstring) :
  (validateEmail email = true ↔
   ∃ name domain tld,
     email = name ++ at_sign :: domain ++ dot :: tld ∧
     name ≠ [] ∧ Forall (λ c, local_char c = true) name ∧
     domain ≠ [] ∧ Forall (λ c, domain_char c = true) domain ∧
     (2 ≤ length tld)%nat ∧ Forall (λ c, is_letter c = true) tld) ∧
  (validateEmail email = true →
   length (filter (λ c, c = at_sign) (email : list N)) = 1 ∧
   Forall (λ c, (33 ≤ c ≤ 126)%N ∧ is_space c = false) email ∧
   (6 ≤ length email)%nat).
Proof.
  split; [apply email_shape|].
  intros (name & domain & tld & -> & Hn & Hname & Hd & Hdomain & Hlen & Htld)
         %email_shape.
  assert (Hname' : Forall (λ c, (37 ≤ c ≤ 122)%N ∧ c ≠ at_sign) name)
    by (eapply Forall_impl; [exact Hname|apply local_char_bounds]).
  assert (Hdomain' : Forall (λ c, (45 ≤ c ≤ 122)%N ∧ c ≠ at_sign) domain)
    by (eapply Forall_impl; [exact Hdomain|apply domain_char_bounds]).
  assert (Htld' : Forall (λ c, (65 ≤ c ≤ 122)%N) tld)
    by (eapply Forall_impl; [exact Htld|apply letter_bounds]).
  split; [|split].
  - rewrite filter_app, filter_cons, decide_True by done.
    rewrite filter_app, filter_cons, decide_False by done.
    rewrite !filter_none; [done| | |].
    + eapply Forall_impl; [exact Htld'|]. unfold at_sign. cbn beta.
      intros c Hc. lia.
    + eapply Forall_impl; [exact Hdomain'|]. by intros c [_ ?].
    + eapply Forall_impl; [exact Hname'|]. by intros c [_ ?].
  - assert (Hok : ∀ c, (33 ≤ c ≤ 126)%N →
              (33 ≤ c ≤ 126)%N ∧ is_space c = false)
      by (intros c Hc; split; [done|by apply printable_not_space]).
    apply Forall_app. split.
    { eapply Forall_impl; [exact Hname'|]. intros c [Hc _]. apply Hok. lia. }
    constructor; [apply Hok; unfold at_sign; lia|].
    apply Forall_app. split.
    { eapply Forall_impl; [exact Hdomain'|]. intros c [Hc _]. apply Hok. lia. }
    constructor; [apply Hok; unfold dot; lia|].
    eapply Forall_impl; [exact Htld'|]. intros c Hc. cbn beta in Hc.
    apply Hok. lia.
  - rewrite length_app. cbn. rewrite length_app. cbn.
    destruct name; [done|]. destruct domain; [done|]. cbn. lia.
Qed.

Lemma validateEmail_accepts_witness :
  length (filter (λ c, c = at_sign)
            (lit "jane.doe+hr@mail.example.org" : list N)) = 1.
Proof.
  exact (proj1 (proj2 (validateEmail_accepts
                         (lit "jane.doe+hr@mail.example.org")) eq_refl)).
Defined.

(** * Status drop-downs *)

Lemma toggle_first_owners appId menus menus' :
  toggle_first appId menus = Some menus' → map owner menus' = map owner menus.
Proof.
  revert menus'. induction menus as [|d rest IH]; intros menus'; cbn; [done|].
  case_decide as Hd; [by intros [= <-]|].
  destruct (toggle_first appId rest) as [rest'|]; [|done].
  intros [= <-]. cbn. by rewrite (IH rest').
Qed.

Lemma toggle_first_open appId menus menus' :
  NoDup (map owner menus) →
  Forall (λ d, owner d ≠ appId → show d = false) menus →
  toggle_first appId menus = Some menus' →
  ∃ before d rest,
    menus = before ++ d :: rest ∧ owner d = appId ∧
    open_menus menus' = if show d then [] else [appId].
Proof.
  revert menus'.
  induction menus as [|d rest IH]; intros menus' Hnodup Hclosed; cbn; [done|].
  change (NoDup (owner d :: map owner rest)) in Hnodup.
  apply NoDup_cons in Hnodup as [Hfresh Hnodup].
  apply Forall_cons in Hclosed as [Hd Hclosed].
  case_decide as Hown.
  - intros [= <-]. exists [], d, rest. split; [done|]. split; [done|].
    assert (Hrest : filter (λ d, show d = true) rest = []).
    { apply elem_of_nil_inv. intros x [Hx Hin]%list_elem_of_filter.
      rewrite Forall_forall in Hclosed.
      destruct (decide (owner x = appId)) as [Hx'|Hx'].
      - apply Hfresh. rewrite Hown, <- Hx'. by apply list_elem_of_fmap_2.
      - rewrite (Hclosed x Hin Hx') in Hx. discriminate Hx. }
    unfold open_menus. rewrite filter_cons, Hrest. cbn [show owner].
    destruct (show d); cbn; [done|by rewrite Hown].
  - destruct (toggle_first appId rest) as [rest'|] eqn:Hrest; [|done].
    intros [= <-].
    destruct (IH rest' Hnodup Hclosed eq_refl)
      as (before & d' & rest'' & -> & Hd' & Hopen).
    exists (d :: before), d', rest''. split; [done|]. split; [done|].
    unfold open_menus in *. rewrite filter_cons.
    rewrite (Hd Hown). by rewrite decide_False.
Qed.

Lemma others_closed_spec appId menus :
  let closed :=
    map (λ d, if decide (owner d ≠ appId) then close d else d) menus in
  map owner closed = map owner menus ∧
  Forall (λ d, owner d ≠ appId → show d = false) closed ∧
  (∀ d, d ∈ closed → owner d = appId → d ∈ menus).
Proof.
  cbv zeta. split; [|split].
  - rewrite <- list_fmap_compose. apply list_fmap_ext.
    intros i d _. cbn. by case_decide.
  - apply Forall_forall. intros d (x & -> & Hx)%list_elem_of_fmap.
    by case_decide.
  - intros d (x & -> & Hx)%list_elem_of_fmap. by case_decide.
Qed.

Lemma toggle_first_missing appId menus :
  toggle_first appId menus = None ↔ appId ∉ map owner menus.
Proof.
  induction menus as [|d rest IH]; cbn.
  - split; [intros _ ?%elem_of_nil|]; done.
  - case_decide as Hd.
    + split; [done|]. intros H. destruct H. rewrite Hd. by left.
    + rewrite not_elem_of_cons. destruct (toggle_first appId rest).
      * split; [done|]. intros [_ H]. by apply IH in H.
      * split; [|done]. intros _. split; [congruence|]. by apply IH.
Qed.

Lemma toggle_outcome (appId : string) (menus : list dropdown) :
  NoDup (map owner menus) →
  let r := toggleStatusDropdown appId menus in
  map owner r.1 = map owner menus ∧
  (∀ d, d ∈ menus → owner d = appId →
        r.2 = None ∧ open_menus r.1 = if show d then [] else [appId]) ∧
  (appId ∉ map owner menus → r.2 ≠ None ∧ open_menus r.1 = []).
Proof.
  intros Hnodup r. subst r. unfold toggleStatusDropdown.
  destruct (others_closed_spec appId menus) as (Howners & Hclosed & Hsame).
  set (closed := map (λ d, if decide (owner d ≠ appId) then close d else d)
                     menus) in *.
  assert (Hnodup' : NoDup (map owner closed)) by (by rewrite Howners).
  destruct (toggle_first appId closed) as [menus'|] eqn:Htoggle; cbn.
  - split; [by rewrite (toggle_first_owners _ _ _ Htoggle)|].
    destruct (toggle_first_open appId closed menus' Hnodup' Hclosed Htoggle)
      as (before & d' & rest & Hsplit & Hown & Hopen).
    split.
    + intros d Hd Hd'. split; [done|]. etrans; [exact Hopen|].
      assert (Hin : d' ∈ menus).
      { apply Hsame; [|done]. rewrite Hsplit, elem_of_app. right. by left. }
      assert (d' = d) as ->; [|done].
      apply list_elem_of_lookup in Hin as [i Hi].
      apply list_elem_of_lookup in Hd as [j Hj].
      assert (i = j) as ->.
      { apply (NoDup_lookup (map owner menus) i j appId Hnodup).
        - by rewrite list_lookup_fmap, Hi; cbn; rewrite Hown.
        - by rewrite list_lookup_fmap, Hj; cbn; rewrite Hd'. }
      congruence.
    + intros Hmissing. destruct Hmissing.
      rewrite <- Howners, Hsplit, fmap_app, elem_of_app. right.
      cbn. rewrite Hown. by left.
  - split; [exact Howners|].
    apply toggle_first_missing in Htoggle. rewrite Howners in Htoggle.
    split; [by intros d Hd%(list_elem_of_fmap_2 owner) <-|].
    intros _. split; [done|].
    unfold open_menus.
    assert (filter (λ d, show d = true) closed = []) as ->; [|done].
    apply elem_of_nil_inv. intros x [Hx Hin]%list_elem_of_filter.
    rewrite Forall_forall in Hclosed.
    rewrite (Hclosed x Hin) in Hx; [done|].
    intros Hown. apply Htoggle. rewrite <- Howners, <- Hown.
    by apply list_elem_of_fmap_2.
Qed.

(** X25.  With one menu per record, a click on a status badge leaves at
    most the menu of that record open, and it is open exactly when it was
    closed before; the menus themselves stay the same.  Without a menu
    for the record the handler throws, after closing every menu. *)
Theorem toggleStatusDropdown_opens_one (appId : string) (menus : list dropdown) :
  NoDup (map owner menus) →
  let r := toggleStatusDropdown appId menus in
  map owner r.1 = map owner menus ∧
  (∀ d, d ∈ menus → owner d = appId →
        r.2 = None ∧ open_menus r.1 = if show d then [] else [appId]) ∧
  (appId ∉ map owner menus → r.2 ≠ None ∧ open_menus r.1 = []).
Proof. exact (toggle_outcome appId menus). Qed.

Lemma toggleStatusDropdown_opens_one_witness :
  let menus := [ {| owner := "a1"; show := false |};
                 {| owner := "a2"; show := true |} ] in
  NoDup (map owner menus) ∧
  open_menus (toggleStatusDropdown "a1" menus).1 = ["a1"] ∧
  open_menus (toggleStatusDropdown "a2" menus).1 = [] ∧
  open_menus (toggleStatusDropdown "a3" menus).1 = [].
Proof.
  cbv zeta.
  assert (Hnodup : NoDup (map owner [ {| owner := "a1"; show := false |};
                                      {| owner := "a2"; show := true |} ])).
  { apply (bool_decide_unpack _). by vm_compute. }
  split; [exact Hnodup|].
  split; [|split].
  - destruct (toggleStatusDropdown_opens_one "a1" _ Hnodup) as (_ & H & _).
    refine (proj2 (H {| owner := "a1"; show := false |} _ eq_refl)). by left.
  - destruct (toggleStatusDropdown_opens_one "a2" _ Hnodup) as (_ & H & _).
    refine (proj2 (H {| owner := "a2"; show := true |} _ eq_refl)).
    right. by left.
  - destruct (toggleStatusDropdown_opens_one "a3" _ Hnodup) as (_ & _ & H).
    apply H. by vm_compute; intros H'; repeat (apply elem_of_cons in H' as [H'|H']; [discriminate H'|]); apply elem_of_nil in H'.
Defined.

Lemma after_gesture_owners (menus : list dropdown) (g : gesture) :
  NoDup (map owner menus) →
  map owner (after_gesture menus g) = map owner menus.
Proof.
  intros Hnodup. destruct g as [appId|]; cbn [after_gesture].
  - exact (proj1 (toggle_outcome appId menus Hnodup)).
  - unfold click_outside. rewrite <- list_fmap_compose.
    by apply list_fmap_ext.
Qed.

Lemma after_gesture_open (menus : list dropdown) (g : gesture) :
  NoDup (map owner menus) →
  (length (open_menus (after_gesture menus g)) ≤ 1)%nat.
Proof.
  intros Hnodup. destruct g as [appId|]; cbn [after_gesture].
  - destruct (toggle_outcome appId menus Hnodup) as (_ & Hthere & Hmissing).
    destruct (decide (appId ∈ map owner menus)) as [Hin|Hout].
    + apply list_elem_of_fmap in Hin as (d & Hd & Hin).
      destruct (Hthere d Hin (eq_sym Hd)) as [_ ->].
      destruct (show d); cbn; lia.
    + destruct (Hmissing Hout) as [_ ->]. cbn; lia.
  - unfold open_menus, click_outside.
    assert (filter (λ d, show d = true) (map close menus) = []) as ->;
      [|cbn; lia].
    apply elem_of_nil_inv. intros x [Hx Hin]%list_elem_of_filter.
    by apply list_elem_of_fmap in Hin as (d & -> & _).
Qed.

(** X26.  With one menu per record, after any sequence of clicks on status
    badges and elsewhere on the page at most one status menu is open, and
    a click elsewhere, or a second click on the badge of the one open
    menu, closes all of them. *)
Theorem at_most_one_menu_open (menus : list dropdown) (gs : list gesture) :
  NoDup (map owner menus) →
  gs ≠ [] →
  let shown := foldl after_gesture menus gs in
  map owner shown = map owner menus ∧
  (length (open_menus shown) ≤ 1)%nat ∧
  open_menus (click_outside shown) = [] ∧
  (∀ appId, open_menus shown = [appId] →
            open_menus (toggleStatusDropdown appId shown).1 = []).
Proof.
  intros Hnodup Hgs. cbv zeta.
  assert (Hinv : ∀ gs menus, NoDup (map owner menus) →
            map owner (foldl after_gesture menus gs) = map owner menus).
  { clear. intros gs. induction gs as [|g gs IH]; intros menus Hnodup; [done|].
    cbn [foldl]. rewrite IH; [by apply after_gesture_owners|].
    by rewrite after_gesture_owners. }
  split; [by apply Hinv|].
  assert (Hnodup' : NoDup (map owner (foldl after_gesture menus gs)))
    by (by rewrite Hinv).
  split; [|split].
  - destruct (exists_last Hgs) as (gs' & g & ->).
    rewrite foldl_app. cbn [foldl].
    apply after_gesture_open. by rewrite Hinv.
  - pose proof (after_gesture_open _ ClickOutside Hnodup') as Hlen.
    cbn [after_gesture] in Hlen. unfold open_menus, click_outside in *.
    assert (filter (λ d, show d = true)
              (map close (foldl after_gesture menus gs)) = []) as ->; [|done].
    apply elem_of_nil_inv. intros x [Hx Hin]%list_elem_of_filter.
    by apply list_elem_of_fmap in Hin as (d & -> & _).
  - intros appId Hopen.
    destruct (toggle_outcome appId _ Hnodup') as (_ & Hthere & _).
    assert (Hin : appId ∈ open_menus (foldl after_gesture menus gs))
      by (rewrite Hopen; by left).
    unfold open_menus in Hin.
    apply list_elem_of_fmap in Hin as (d & Hd & [Hshow Hin]%list_elem_of_filter).
    destruct (Hthere d Hin (eq_sym Hd)) as [_ ->]. by rewrite Hshow.
Qed.

Lemma at_most_one_menu_open_witness :
  let menus := [ {| owner := "a1"; show := true |};
                 {| owner := "a2"; show := true |} ] in
  let shown := foldl after_gesture menus [ClickBadge "a2"; ClickBadge "a1"] in
  open_menus menus = ["a1"; "a2"] ∧
  map owner shown = map owner menus ∧
  (length (open_menus shown) ≤ 1)%nat.
Proof.
  cbv zeta. split; [reflexivity|].
  assert (Hnodup : NoDup (map owner [ {| owner := "a1"; show := true |};
                                      {| owner := "a2"; show := true |} ])).
  { apply (bool_decide_unpack _). by vm_compute. }
  destruct (at_most_one_menu_open _ [ClickBadge "a2"; ClickBadge "a1"]
              Hnodup ltac:(discriminate)) as (Hown & Hlen & _).
  split; [exact Hown|exact Hlen].
Defined.
